(** * Orderly, [Templates/split.py]: the [.split] template splitter

    The script reads one [.split] file, cuts its text at every match of the
    regular expression [// *FILE: *([^ ]+) *\n] with [re.split], writes the
    text before the first match to a file named after the input, and writes
    the text after each match to the file the match names.

    The development embeds the script together with the parts of the Python
    library it runs through: the backtracking matcher of [re] on the opcodes
    this pattern compiles to, the scanning loop of [re.split],
    [os.path.splitext] (POSIX flavour), and [open]/[read]/[write] on the
    files of an operating system, where a file is known by its inode and
    several paths may lead to one file.  Text is a list of 8-bit
    characters; what [f.read()] returns is what the store holds for the
    file. *)

From Stdlib Require Import Ascii String ZArith Lia.
From stdpp Require Import gmap strings list fin_maps.

Abbreviation text := (list ascii).

(** A string literal as text. *)
Definition str (s : string) : text := list_ascii_of_string s.

(** The line feed, [\n]. *)
Definition nl : ascii := "010"%char.
Abbreviation sp := (" "%char).

(** ** The matcher of [re] *)

Module Sre.

(** Tests on one character, as [sre_parse] names them. *)
Inductive item : Type :=
| LITERAL (c : ascii)
| NOT_LITERAL (c : ascii).

(** The compiled pattern is a flat sequence: a one-character test, a greedy
    repetition of a one-character test with a lower bound and no upper
    bound, or a mark recording the current position (a group's start has an
    even index, its end the next odd one). *)
Inductive node : Type :=
| AT (i : item)
| MAX_REPEAT (min : nat) (i : item)
| MARK (n : nat).

Coercion AT : item >-> node.

(** A position in the subject is the suffix that starts there. *)
Abbreviation marks := (gmap nat text).

Definition accepts (i : item) (c : ascii) : bool :=
  match i with
  | LITERAL x => bool_decide (c = x)
  | NOT_LITERAL x => bool_decide (c ≠ x)
  end.

(** Greedy repetition: take the character when the test accepts it and try
    the longer repetition first; when that fails, stop here, provided the
    lower bound is met, and run the rest of the pattern [k]. *)
Fixpoint repeat_one {R : Type} (i : item) (min : nat) (k : text → option R) (s : text) : option R :=
  match s with
  | c :: s' =>
      if accepts i c then
        match repeat_one i (pred min) k s' with
        | Some r => Some r
        | None => match min with 0 => k s | S _ => None end
        end
      else match min with 0 => k s | S _ => None end
  | [] => match min with 0 => k [] | S _ => None end
  end.

(** [sre_match code start must_advance m s]: match [code] at position [s] of
    an attempt that began at [start]; the result is the marks and the
    position after the match.  With [must_advance] an empty match is
    refused at the end of the pattern, which makes the matcher backtrack. *)
Fixpoint sre_match (code : list node) (start : text) (must_advance : bool)
    (m : marks) (s : text) : option (marks * text) :=
  match code with
  | [] =>
      if must_advance && bool_decide (length s = length start) then None
      else Some (m, s)
  | AT i :: code' =>
      match s with
      | c :: s' => if accepts i c then sre_match code' start must_advance m s' else None
      | [] => None
      end
  | MAX_REPEAT min i :: code' =>
      repeat_one i min (sre_match code' start must_advance m) s
  | MARK n :: code' =>
      sre_match code' start must_advance (<[n := s]> m) s
  end.

(** One found match: the text skipped before it, the matched text and the
    marks. *)
Record found : Type := Found {
  before : text;
  matched : text;
  fmarks : marks
}.

(** [sre_search]: the leftmost position at which the pattern matches.  Only
    the first position is subject to [must_advance]. *)
Fixpoint sre_search (code : list node) (must_advance : bool) (s : text)
    : option (text * marks * text) :=
  match sre_match code s must_advance ∅ s with
  | Some (m, rest) => Some ([], m, rest)
  | None =>
      match s with
      | [] => None
      | c :: s' =>
          match sre_search code false s' with
          | Some (pre, m, rest) => Some (c :: pre, m, rest)
          | None => None
          end
      end
  end.

(** The loop shared by [split] and [finditer]: search, record the match,
    continue after it; after an empty match the next one must advance.
    The result is the matches in order and the text after the last one. *)
Fixpoint scan_loop (fuel : nat) (code : list node) (must_advance : bool) (s : text)
    : list found * text :=
  match fuel with
  | 0 => ([], s)
  | S fuel' =>
      match sre_search code must_advance s with
      | None => ([], s)
      | Some (pre, m, rest) =>
          let whole := take (length s - length pre - length rest) (drop (length pre) s) in
          let '(ms, tl) := scan_loop fuel' code (bool_decide (whole = [])) rest in
          (Found pre whole m :: ms, tl)
      end
  end.

(** Every iteration but one in two consumes a character. *)
Definition scan (code : list node) (s : text) : list found * text :=
  scan_loop (2 * length s + 2) code false s.

(** [m.group(g)]: the text between the two marks of group [g]. *)
Definition group (m : marks) (g : nat) : option text :=
  match m !! (2 * (g - 1)), m !! (2 * (g - 1) + 1) with
  | Some lo, Some hi => Some (take (length lo - length hi) lo)
  | _, _ => None
  end.

(** [re.compile(code).split(s)] for a pattern with one group: the text
    before each match and the match's group 1, then the text after the last
    match.  A group that took no part in the match would be [None] in
    Python; the marker pattern always sets its group
    (lemma [marker_match_inv]), so the empty default is never taken. *)
Definition split (code : list node) (s : text) : list text :=
  let '(ms, tl) := scan code s in
  flat_map (λ f, [before f; default [] (group (fmarks f) 1)]) ms ++ [tl].

(** [m.group(0)] of every match, as [re.finditer] yields them. *)
Definition finditer (code : list node) (s : text) : list found :=
  fst (scan code s).

End Sre.

Import Sre.

(** The pattern of the script, [// *FILE: *([^ ]+) *\n], as [sre_parse]
    reads it, with group 1 delimited by marks 0 and 1. *)
Definition MARKER : list node :=
  [ AT (LITERAL "/"); AT (LITERAL "/");
    MAX_REPEAT 0 (LITERAL " ");
    AT (LITERAL "F"); AT (LITERAL "I"); AT (LITERAL "L"); AT (LITERAL "E"); AT (LITERAL ":");
    MAX_REPEAT 0 (LITERAL " ");
    MARK 0; MAX_REPEAT 1 (NOT_LITERAL " "); MARK 1;
    MAX_REPEAT 0 (LITERAL " ");
    AT (LITERAL nl) ]%char.

(** ** [os.path.splitext], POSIX flavour *)

Module PosixPath.

(** [p.rfind(c)]: the highest index at which [c] occurs, [-1] when it does
    not occur. *)
Fixpoint rfind_from (c : ascii) (p : text) (i found : Z) : Z :=
  match p with
  | [] => found
  | x :: p' => rfind_from c p' (i + 1) (if bool_decide (x = c) then i else found)
  end.

Definition rfind (c : ascii) (p : text) : Z := rfind_from c p 0 (-1).

(** [p[i:j]] for indices that are not negative. *)
Definition slice (p : text) (i j : Z) : text :=
  take (Z.to_nat j - Z.to_nat i) (drop (Z.to_nat i) p).

(** The [while filenameIndex < dotIndex] loop of [genericpath._splitext]:
    the first character of the file name that is not a dot makes the last
    dot the start of the extension.  [n] bounds the iterations. *)
Fixpoint skip_dots (n : nat) (p : text) (filenameIndex dotIndex : Z) : option (text * text) :=
  match n with
  | 0 => None
  | S n' =>
      if (filenameIndex <? dotIndex)%Z then
        if bool_decide (slice p filenameIndex (filenameIndex + 1) ≠ ["."%char]) then
          Some (take (Z.to_nat dotIndex) p, drop (Z.to_nat dotIndex) p)
        else skip_dots n' p (filenameIndex + 1) dotIndex
      else None
  end.

Definition splitext (p : text) : text * text :=
  let sepIndex := rfind "/" p in
  let dotIndex := rfind "." p in
  if (dotIndex >? sepIndex)%Z then
    match skip_dots (Z.to_nat (dotIndex - sepIndex)) p (sepIndex + 1) dotIndex with
    | Some r => r
    | None => (p, [])
    end
  else (p, []).

End PosixPath.

Import PosixPath.

(** ** Files, exceptions and the trace of I/O *)

Inductive exn : Type :=
| AssertionError (msg : string)
| IndexError
| OSError (path : text)
| ValueError.

Inductive mode : Type := Rd | Wr.

Inductive event : Type :=
| EvOpen (path : text) (md : mode)
| EvRead (path : text)
| EvWrite (path contents : text).

(** The NUL character: [open] refuses a path that holds one. *)
Definition NUL : ascii := "000"%char.

(** A file is known by its inode, not by the text of a path: [x] and
    [./x], a link and its target, lead to one file. *)
Abbreviation inode := positive.

(** What the operating system decides.  A run of the script creates and
    writes files and does nothing else (no directory, no link, no removal),
    so none of this changes during a run:
    - the file each path leads to, the one [open] would create included;
    - the paths that cannot be opened for writing (no permission, a
      directory that is missing, a path that is a directory);
    - the files that keep nothing of what is written to them (a null
      device, a terminal, a pipe);
    - the writes that fail (no space left, an I/O error), each with what
      the failed write leaves in the file. *)
Record os : Type := Os {
  resolve : text → inode;
  denied : text → bool;
  device : inode → bool;
  torn : inode → text → option text
}.

(** The world of one run: the contents of the files, the operating system,
    and every I/O call made so far, oldest first. *)
Record world : Type := World {
  files : gmap inode text;
  sys : os;
  trace : list event
}.

Definition log (e : event) (w : world) : world :=
  World (files w) (sys w) (trace w ++ [e]).

(** New contents for a file, which a device does not keep. *)
Definition store (file : inode) (contents : text) (w : world) : world :=
  if device (sys w) file then w
  else World (<[file := contents]> (files w)) (sys w) (trace w).

(** A computation either raises or returns, and leaves a world behind. *)
Definition M (A : Type) : Type := world → (exn + A) * world.

Definition ret {A} (a : A) : M A := λ w, (inr a, w).
Definition raise {A} (e : exn) : M A := λ w, (inl e, w).
Definition bind {A B} (c : M A) (k : A → M B) : M B :=
  λ w, match c w with
       | (inl e, w') => (inl e, w')
       | (inr a, w') => k a w'
       end.

Notation "x <- c ;; k" := (bind c (λ x, k))
  (at level 100, c at next level, right associativity).
Notation "c ;;; k" := (bind c (λ _, k))
  (at level 100, right associativity).

(** [assert cond, msg] *)
Definition assert (cond : bool) (msg : string) : M unit :=
  if cond then ret tt else raise (AssertionError msg).

(** [open(path, 'r')].  The script opens for reading only the path it got
    as an argument of the process, and those hold no NUL. *)
Definition open_r (path : text) : M unit :=
  λ w, match files w !! resolve (sys w) path with
       | Some _ => (inr tt, log (EvOpen path Rd) w)
       | None => (inl (OSError path), log (EvOpen path Rd) w)
       end.

(** [f.read()] on a file just opened for reading *)
Definition read (path : text) : M text :=
  λ w, match files w !! resolve (sys w) path with
       | Some t => (inr t, log (EvRead path) w)
       | None => (inl (OSError path), log (EvRead path) w)
       end.

(** What [open(path, 'w')] raises, if anything: [ValueError] on a path
    with a NUL, before the operating system is asked; [OSError] when the
    operating system refuses. *)
Definition open_error (o : os) (path : text) : option exn :=
  if bool_decide (NUL ∈ path) then Some ValueError
  else if denied o path then Some (OSError path)
  else None.

(** [open(path, 'w')] creates the file or truncates it. *)
Definition open_w (path : text) : M unit :=
  λ w, match open_error (sys w) path with
       | Some e => (inl e, log (EvOpen path Wr) w)
       | None => (inr tt, store (resolve (sys w) path) [] (log (EvOpen path Wr) w))
       end.

(** [f.write(contents)] on a file just opened for writing, then the close
    at the end of the [with] block, where a write that fails raises. *)
Definition write (path contents : text) : M unit :=
  λ w, let file := resolve (sys w) path in
       match torn (sys w) file contents with
       | Some remains => (inl (OSError path), store file remains (log (EvWrite path contents) w))
       | None => (inr tt, store file contents (log (EvWrite path contents) w))
       end.

(** [l[i]] *)
Definition index {A} (l : list A) (i : nat) : M A :=
  match l !! i with Some a => ret a | None => raise IndexError end.

(** [l.pop(0)]: the first element and the list without it. *)
Definition pop0 {A} (l : list A) : M (A * list A) :=
  match l with a :: l' => ret (a, l') | [] => raise IndexError end.

(** [for x in l: body(x)] *)
Fixpoint for_each {A} (l : list A) (body : A → M unit) : M unit :=
  match l with
  | [] => ret tt
  | x :: l' => body x ;;; for_each l' body
  end.

(** ** The script *)

(** [zip(gen, gen)] over one shared iterator: the elements two by two; an
    odd last element is consumed and dropped. *)
Fixpoint pairwise {A} (iterable : list A) : list (A * A) :=
  match iterable with
  | a :: b :: rest => (a, b) :: pairwise rest
  | _ => []
  end.

Definition export (name contents : text) : M unit :=
  open_w name ;;; write name contents.

Definition main (argv : list text) : M unit :=
  let argc := length argv in
  assert (bool_decide (2 ≤ argc)) "Expected file path argument" ;;;
  assert (bool_decide (argc ≤ 2)) "Too many arguments" ;;;
  name <- index argv 1 ;;
  let '(stripped_name, ext) := splitext name in
  assert (bool_decide (ext = str ".split")) "Expected `.split` file" ;;;
  open_r name ;;;
  contents <- read name ;;
  let parsed := split MARKER contents in
  let main_name := stripped_name in
  popped <- pop0 parsed ;;
  let '(main_contents, parsed) := popped in
  (if bool_decide (main_contents ≠ []) then export main_name main_contents else ret tt) ;;;
  for_each (pairwise parsed) (λ '(sub_name, sub_contents), export sub_name sub_contents).

(** A process starts with nothing in its trace. *)
Definition boot (fs : gmap inode text) (o : os) : world := World fs o [].

(** ** The tokens of a document *)

(** The text of a marker: two slashes, [a] spaces, [FILE:], [b] spaces, the
    name, [c] spaces and the line feed. *)
Definition marker_text (a b : nat) (name : text) (c : nat) : text :=
  str "//" ++ replicate a sp ++ str "FILE:" ++ replicate b sp ++ name ++ replicate c sp ++ [nl].

(** What follows the group: mark 1, spaces, line feed. *)
Definition after_name : list node :=
  [ MARK 1; MAX_REPEAT 0 (LITERAL " "); AT (LITERAL nl) ]%char.

(** The scan as a derivation: either no marker is left, or the leftmost
    one is cut out and the scan goes on after it. *)
Inductive scans : text → list found → text → Prop :=
| scans_end s :
    sre_search MARKER false s = None → scans s [] s
| scans_cut pre a b name c m rest ms tl :
    sre_search MARKER false (pre ++ marker_text a b name c ++ rest) = Some (pre, m, rest) →
    name ≠ [] → Forall (λ x, x ≠ sp) name → group m 1 = Some name →
    scans rest ms tl →
    scans (pre ++ marker_text a b name c ++ rest)
          (Found pre (marker_text a b name c) m :: ms) tl.

(** The target names, in the order of their markers. *)
Definition names (s : text) : list text :=
  map (λ f, default [] (group (fmarks f) 1)) (finditer MARKER s).

(** The texts of the markers themselves. *)
Definition marker_lines (s : text) : list text :=
  map matched (finditer MARKER s).

(** The texts between the markers: before the first one, between each two,
    and after the last one. *)
Definition cuts (s : text) : list text :=
  map before (scan MARKER s).1 ++ [(scan MARKER s).2].

(** The preamble is the first of them, the segments are the others. *)
Definition preamble (s : text) : text := hd [] (cuts s).
Definition segments (s : text) : list text := tail (cuts s).

(** A text alone is the marker of [name] when, taken as a whole document,
    it splits into an empty preamble, the name and an empty segment.  This
    is the language of the pattern; what a line becomes inside a longer
    document depends on what follows it too (see [runs_on]). *)
Definition recognized (line name : text) : Prop :=
  split MARKER line = [[]; name; []].



(** ** What a run leaves behind *)

(** The [export] calls of the script on a parsed document. *)
Definition exports (main_name : text) (parsed : list text) : list (text * text) :=
  match parsed with
  | [] => []
  | main_contents :: parsed' =>
      (if bool_decide (main_contents ≠ []) then [(main_name, main_contents)] else [])
      ++ pairwise parsed'
  end.

(** The files after a sequence of exports that all go through, each to
    the file its path leads to, and the I/O they make. *)
Definition write_all (o : os) (outs : list (text * text)) (fs : gmap inode text)
    : gmap inode text :=
  foldl (λ fs out, <[resolve o out.1 := out.2]> fs) fs outs.

Definition export_events (outs : list (text * text)) : list event :=
  flat_map (λ o, [EvOpen o.1 Wr; EvWrite o.1 o.2]) outs.

(** The writes of a trace. *)
Definition writes_of (tr : list event) : list (text * text) :=
  flat_map (λ e, match e with EvWrite p c => [(p, c)] | _ => [] end) tr.

(** An export goes through and is kept: the path can be opened, it leads
    to a file that keeps what is written, and the write does not fail. *)
Definition exportable (o : os) (path contents : text) : Prop :=
  open_error o path = None ∧
  device o (resolve o path) = false ∧
  torn o (resolve o path) contents = None.

(** Every export the run is to make goes through and is kept. *)
Definition writable (o : os) (main_name contents : text) : Prop :=
  (preamble contents ≠ [] → exportable o main_name (preamble contents)) ∧
  Forall (λ out, exportable o out.1 out.2) (zip (names contents) (segments contents)).

(** The names of the files a run is to write. *)
Definition targets (main_name contents : text) : list text :=
  (if bool_decide (preamble contents ≠ []) then [main_name] else [])
  ++ names contents.

(** A run ends well or in an error of the I/O it makes. *)
Definition io_result (r : exn + unit) : Prop :=
  r = inr tt ∨ (∃ p, r = inl (OSError p)) ∨ r = inl ValueError.

(** ** Sample runs *)

Definition script : text := str "split.py".
Definition sample_path : text := str "a.split".

(** A preamble, a marker with a segment, and a marker that ends the
    document. *)
Definition sample_doc : text :=
  str "pre" ++ [nl] ++ str "// FILE: x.txt" ++ [nl] ++ str "foo bar" ++ [nl]
  ++ str "// FILE: y.txt" ++ [nl].

(** The same target named by two markers. *)
Definition twice_doc : text :=
  str "// FILE: x" ++ [nl] ++ str "foo bar" ++ [nl]
  ++ str "// FILE: x" ++ [nl] ++ str "baz qux" ++ [nl].

(** The same file named by two markers, then by a third under another
    name. *)
Definition alias_doc : text :=
  twice_doc ++ str "// FILE: ./x" ++ [nl] ++ str "last one" ++ [nl].

(** A marker without spaces, followed by a line without spaces. *)
Definition bare_doc : text :=
  str "//FILE:name" ++ [nl] ++ str "foo" ++ [nl].

(** A system where every path is its own file, every path without a NUL
    can be opened, and every write is kept. *)
Definition plain_os : os :=
  Os encode (λ _, false) (λ _, false) (λ _ _, None).

(** The same, with [./p] leading to the file of [p]. *)
Definition drop_dot_slash (p : text) : text :=
  match p with
  | "."%char :: "/"%char :: q => q
  | _ => p
  end.

Definition posix_os : os :=
  Os (λ p, encode (drop_dot_slash p)) (λ _, false) (λ _, false) (λ _ _, None).

(** The same as [plain_os], with [x.txt] refused. *)
Definition strict_os : os :=
  Os encode (λ p, bool_decide (p = str "x.txt")) (λ _, false) (λ _ _, None).

(** The same as [plain_os], with no room left when [x.txt] is written:
    the write fails and leaves the file empty. *)
Definition full_os : os :=
  Os encode (λ _, false) (λ _, false)
     (λ file _, if bool_decide (file = encode (str "x.txt")) then Some [] else None).

Definition sample_fs (o : os) (doc : text) : gmap inode text :=
  {[ resolve o sample_path := doc ]}.

(** ** The marker line as the specification words it *)



(** ** The file name of a path *)

(** [os.path.basename], POSIX flavour: what follows the last slash. *)
Definition basename (p : text) : text :=
  drop (Z.to_nat (rfind "/" p + 1)) p.

(** ** Properties of the matcher *)

(** A character is not among the listed ones. *)
Ltac not_among :=
  let H := fresh in
  intros H; repeat (apply elem_of_cons in H as [H|H]; [discriminate H|]);
  by apply elem_of_nil in H.

(** Appends to the right, literals unfolded. *)
Ltac flatten_app :=
  repeat (progress (rewrite <-?app_assoc; cbn [app str list_ascii_of_string])).

Section Repeat.
Context {R : Type}.
Implicit Types (k : text → option R) (s n t : text).

(** A successful repetition took a run of accepted characters, at least
    [min] of them, and the rest of the pattern matched after the run. *)
Lemma repeat_one_sound i min k s r :
  repeat_one i min k s = Some r →
  ∃ n t, s = n ++ t ∧ Forall (λ c, accepts i c = true) n ∧ min ≤ length n ∧ k t = Some r.
Proof.
  revert min. induction s as [|c s IH]; intros min H; cbn [repeat_one] in H.
  - destruct min; [|done]. exists [], []. auto with lia.
  - destruct (accepts i c) eqn:Hc.
    + destruct (repeat_one i (pred min) k s) eqn:Hr.
      * injection H as <-. destruct (IH _ Hr) as (n & t & -> & Hn & Hmin & Hk).
        exists (c :: n), t. repeat split; [by constructor | simpl; lia | done].
      * destruct min; [|done]. exists [], (c :: s). auto with lia.
    + destruct min; [|done]. exists [], (c :: s). auto with lia.
Qed.

(** Greed: the run taken is the longest one after which the rest of the
    pattern matches. *)
Lemma repeat_one_greedy i min k n t r :
  Forall (λ c, accepts i c = true) n → min ≤ length n → k t = Some r →
  (∀ n' t', n ++ t = n' ++ t' → length n < length n' →
            Forall (λ c, accepts i c = true) n' → k t' = None) →
  repeat_one i min k (n ++ t) = Some r.
Proof.
  intros Hn. revert min. induction Hn as [|c n Hc Hn IH]; intros min Hmin Hk Hmax.
  - simpl in Hmin. assert (min = 0) as -> by lia. simpl.
    destruct t as [|c t]; [done|]. cbn [repeat_one].
    destruct (accepts i c) eqn:Hc; [|done].
    destruct (repeat_one i (pred 0) k t) eqn:Hr; [|done].
    apply repeat_one_sound in Hr as (n' & t' & -> & Hn' & _ & Hk').
    rewrite (Hmax (c :: n') t') in Hk'; [done|done|simpl; lia|by constructor].
  - cbn [app repeat_one]. rewrite Hc, IH; [done|simpl in Hmin; lia|done|].
    intros n' t' Heq Hlen Hn'. apply (Hmax (c :: n') t').
    + simpl. by rewrite Heq.
    + simpl. lia.
    + by constructor.
Qed.
End Repeat.

Lemma accepts_literal c x : accepts (LITERAL c) x = true ↔ x = c.
Proof. simpl. by rewrite bool_decide_eq_true. Qed.

Lemma accepts_not_literal c x : accepts (NOT_LITERAL c) x = true ↔ x ≠ c.
Proof. simpl. by rewrite bool_decide_eq_true. Qed.

Lemma Forall_literal c (n : text) :
  Forall (λ x, accepts (LITERAL c) x = true) n ↔ n = replicate (length n) c.
Proof.
  induction n as [|x n IH]; cbn [length replicate]; [done|].
  rewrite Forall_cons, IH, accepts_literal. split.
  - intros [-> <-]. done.
  - intros [= <- <-]. done.
Qed.

Lemma Forall_not_literal c (n : text) :
  Forall (λ x, accepts (NOT_LITERAL c) x = true) n ↔ Forall (λ x, x ≠ c) n.
Proof. apply Forall_proper; [intros x; apply accepts_not_literal | done]. Qed.

(** One literal of the pattern against the next character. *)
Lemma match_literal_inv c code st adv m s r :
  sre_match (AT (LITERAL c) :: code) st adv m s = Some r →
  ∃ s', s = c :: s' ∧ sre_match code st adv m s' = Some r.
Proof.
  cbn [sre_match]. destruct s as [|x s]; [done|].
  destruct (accepts (LITERAL c) x) eqn:Hx; [|done].
  apply accepts_literal in Hx as ->. eauto.
Qed.

Lemma match_literal c code st adv m s :
  sre_match (AT (LITERAL c) :: code) st adv m (c :: s) = sre_match code st adv m s.
Proof. cbn [sre_match]. by rewrite (proj2 (accepts_literal c c) eq_refl). Qed.

Lemma match_repeat min i code st adv m s :
  sre_match (MAX_REPEAT min i :: code) st adv m s
  = repeat_one i min (sre_match code st adv m) s.
Proof. done. Qed.

Lemma match_mark n code st adv m s :
  sre_match (MARK n :: code) st adv m s = sre_match code st adv (<[n := s]> m) s.
Proof. done. Qed.

Lemma match_end st m s : sre_match [] st false m s = Some (m, s).
Proof. done. Qed.

Lemma match_literal_other c code st adv m x s :
  x ≠ c → sre_match (AT (LITERAL c) :: code) st adv m (x :: s) = None.
Proof.
  intros Hx. cbn [sre_match]. destruct (accepts (LITERAL c) x) eqn:E; [|done].
  by apply accepts_literal in E.
Qed.

(** A run of spaces before a character that is not a space is taken whole
    by [ *]. *)
Lemma repeat_spaces {R} (k : text → option R) n x t r :
  x ≠ sp → k (x :: t) = Some r →
  repeat_one (LITERAL sp) 0 k (replicate n sp ++ x :: t) = Some r.
Proof.
  intros Hx Hk. apply repeat_one_greedy.
  - apply Forall_literal. by rewrite length_replicate.
  - lia.
  - done.
  - intros n' t' Heq Hlen Hn'. apply Forall_literal in Hn'.
    rewrite length_replicate in Hlen. exfalso.
    assert (n' !! n = Some sp) as Hsp.
    { rewrite Hn'. apply lookup_replicate_2; lia. }
    assert ((n' ++ t') !! n = Some x) as Hnl.
    { rewrite <-Heq, lookup_app_r; rewrite length_replicate; [|lia].
      by rewrite Nat.sub_diag. }
    rewrite lookup_app_l in Hnl by lia. rewrite Hsp in Hnl. by injection Hnl.
Qed.

(** ** The marker pattern *)

Lemma after_name_inv st m s r :
  sre_match after_name st false m s = Some r →
  ∃ c rest, s = replicate c sp ++ nl :: rest ∧ r = (<[1 := s]> m, rest).
Proof.
  unfold after_name. rewrite match_mark, match_repeat. intros H.
  apply repeat_one_sound in H as (n & t & -> & Hn & _ & H).
  apply Forall_literal in Hn.
  apply match_literal_inv in H as (rest & -> & H).
  rewrite match_end in H. injection H as <-. exists (length n), rest. by rewrite <-Hn.
Qed.

Lemma after_name_spaces st m c rest :
  sre_match after_name st false m (replicate c sp ++ nl :: rest)
  = Some (<[1 := replicate c sp ++ nl :: rest]> m, rest).
Proof.
  unfold after_name. rewrite match_mark, match_repeat.
  apply repeat_spaces; [done|]. by rewrite match_literal.
Qed.

(** A match of the marker pattern has the shape of a marker text, and
    group 1 is the name in it. *)
Lemma marker_match_inv st s m rest :
  sre_match MARKER st false ∅ s = Some (m, rest) →
  ∃ a b name c,
    s = marker_text a b name c ++ rest ∧ name ≠ [] ∧ Forall (λ x, x ≠ sp) name ∧
    group m 1 = Some name.
Proof.
  unfold MARKER. intros H.
  apply match_literal_inv in H as (s1 & -> & H).
  apply match_literal_inv in H as (s2 & -> & H).
  rewrite match_repeat in H.
  apply repeat_one_sound in H as (n1 & t1 & -> & Hn1 & _ & H).
  apply Forall_literal in Hn1.
  do 5 (apply match_literal_inv in H as (? & -> & H)).
  rewrite match_repeat in H.
  apply repeat_one_sound in H as (n2 & t2 & -> & Hn2 & _ & H).
  apply Forall_literal in Hn2.
  rewrite match_mark, match_repeat in H.
  apply repeat_one_sound in H as (name & t3 & -> & Hname & Hmin & H).
  apply Forall_not_literal in Hname.
  apply (after_name_inv st) in H as (c & rest' & -> & [= -> ->]).
  exists (length n1), (length n2), name, c. repeat split.
  - unfold marker_text. rewrite <-Hn1, <-Hn2. by flatten_app.
  - destruct name; simpl in *; [lia | done].
  - done.
  - unfold group. cbn [Nat.mul Nat.sub Nat.add].
    rewrite lookup_insert_ne, !lookup_insert_eq by done.
    f_equal. rewrite length_app, Nat.add_sub. by rewrite take_app_length.
Qed.

(** The converse: at a marker text the pattern matches, and the name is
    group 1, unless the match can be longer.  It can be when no space
    follows the name and the line feed ending a longer run of characters
    other than the space lies further on: the group is greedy and takes
    line feeds. *)
Lemma marker_match_here st a b name c rest :
  name ≠ [] → Forall (λ x, x ≠ sp) name →
  (c = 0 → ∀ u v c' r, rest = u ++ v → Forall (λ x, x ≠ sp) u →
             v ≠ replicate c' sp ++ nl :: r) →
  ∃ m, sre_match MARKER st false ∅ (marker_text a b name c ++ rest) = Some (m, rest) ∧
       group m 1 = Some name.
Proof.
  intros Hne Hname Hlast.
  set (t0 := name ++ replicate c sp ++ nl :: rest).
  set (t1 := replicate c sp ++ nl :: rest).
  exists (<[1 := t1]> (<[0 := t0]> ∅)). split.
  - unfold marker_text, MARKER. flatten_app.
    rewrite !match_literal, match_repeat.
    apply repeat_spaces; [done|].
    rewrite !match_literal, match_repeat.
    destruct name as [|x name]; [done|]. apply Forall_cons in Hname as [Hx Hname].
    cbn [app]. apply repeat_spaces; [done|].
    rewrite match_mark, match_repeat. fold after_name.
    change (x :: name ++ replicate c sp ++ nl :: rest) with ((x :: name) ++ t1).
    apply repeat_one_greedy.
    + apply Forall_not_literal. by constructor.
    + simpl. lia.
    + apply after_name_spaces.
    + intros n' t' Heq Hlen Hn'. apply Forall_not_literal in Hn'.
      destruct (sre_match after_name st false _ t') eqn:E; [exfalso|done].
      apply after_name_inv in E as (c' & r & -> & _).
      apply app_eq_inv in Heq as [(k & Hk & _)|(k & -> & Hk)].
      { rewrite Hk, length_app in Hlen. lia. }
      rewrite length_app in Hlen. destruct k as [|y k]; [simpl in Hlen; lia|].
      apply Forall_app in Hn' as [_ Hk'%Forall_cons]. destruct Hk' as [Hy Hk'].
      unfold t1 in Hk. destruct c as [|c]; simpl in Hk.
      * injection Hk as <- Hk. by eapply Hlast.
      * injection Hk as <- _. done.
  - unfold group. cbn [Nat.mul Nat.sub Nat.add].
    rewrite lookup_insert_ne, !lookup_insert_eq by done.
    f_equal. unfold t0. fold t1. rewrite length_app, Nat.add_sub. by rewrite take_app_length.
Qed.

(** A marker text on its own, and one whose name is followed by a space. *)
Lemma marker_match_whole st a b name c :
  name ≠ [] → Forall (λ x, x ≠ sp) name →
  ∃ m, sre_match MARKER st false ∅ (marker_text a b name c) = Some (m, []) ∧
       group m 1 = Some name.
Proof.
  intros Hne Hname. rewrite <-(app_nil_r (marker_text _ _ _ _)).
  apply marker_match_here; [done..|].
  intros _ u v c' r Huv _. symmetry in Huv. apply app_eq_nil in Huv as [_ ->].
  by destruct c'.
Qed.

(** ** Searching and scanning *)

(** A found match starts where the skipped text ends. *)
Lemma search_inv code s pre m rest :
  sre_search code false s = Some (pre, m, rest) →
  ∃ s', s = pre ++ s' ∧ sre_match code s' false ∅ s' = Some (m, rest).
Proof.
  revert pre. induction s as [|x s IH]; intros pre H; cbn [sre_search] in H.
  - destruct (sre_match code [] false ∅ []) as [[m' r']|] eqn:E; [|done].
    injection H as <- <- <-. by exists [].
  - destruct (sre_match code (x :: s) false ∅ (x :: s)) as [[m' r']|] eqn:E.
    + injection H as <- <- <-. by exists (x :: s).
    + destruct (sre_search code false s) as [[[pre' m'] r']|] eqn:E'; [|done].
      injection H as <- <- <-. destruct (IH _ eq_refl) as (s' & -> & Hs').
      by exists s'.
Qed.

Lemma search_here code s m rest :
  sre_match code s false ∅ s = Some (m, rest) →
  sre_search code false s = Some ([], m, rest).
Proof. intros H. destruct s; cbn [sre_search]; by rewrite H. Qed.

Lemma search_skip code x s :
  sre_match code (x :: s) false ∅ (x :: s) = None →
  sre_search code false (x :: s)
  = match sre_search code false s with
    | Some (pre, m, rest) => Some (x :: pre, m, rest)
    | None => None
    end.
Proof. intros H. cbn [sre_search]. by rewrite H. Qed.

(** The marker pattern starts with a slash. *)
Lemma marker_needs_slash st x s :
  x ≠ "/"%char → sre_match MARKER st false ∅ (x :: s) = None.
Proof. apply match_literal_other. Qed.

Lemma marker_search_inv s pre m rest :
  sre_search MARKER false s = Some (pre, m, rest) →
  ∃ a b name c,
    s = pre ++ marker_text a b name c ++ rest ∧ name ≠ [] ∧
    Forall (λ x, x ≠ sp) name ∧ group m 1 = Some name.
Proof.
  intros (s' & -> & H)%search_inv.
  apply marker_match_inv in H as (a & b & name & c & -> & ?). eauto 10.
Qed.

Lemma marker_text_length a b name c : 8 ≤ length (marker_text a b name c).
Proof. unfold marker_text. rewrite !length_app. simpl. lia. Qed.

(** The text of the match, cut out of the subject by the lengths. *)
Lemma matched_cut (pre w rest : text) :
  take (length (pre ++ w ++ rest) - length pre - length rest)
       (drop (length pre) (pre ++ w ++ rest)) = w.
Proof.
  rewrite drop_app_length, !length_app.
  replace (_ - _ - _) with (length w) by lia. apply take_app_length.
Qed.

(** The fuel of the scanning loop does not matter once it exceeds the
    length of the subject: every marker consumes characters. *)
Lemma scan_loop_fuel n n' s :
  length s < n → length s < n' →
  scan_loop n MARKER false s = scan_loop n' MARKER false s.
Proof.
  revert n' s. induction n as [|n IH]; intros [|n'] s Hn Hn'; [lia..|].
  cbn [scan_loop].
  destruct (sre_search MARKER false s) as [[[pre m] rest]|] eqn:E; [|done].
  destruct (marker_search_inv _ _ _ _ E) as (a & b & name & c & -> & _).
  rewrite matched_cut. pose proof (marker_text_length a b name c) as Hw.
  rewrite bool_decide_false by (intros H; rewrite H in Hw; simpl in Hw; lia).
  rewrite !length_app in Hn, Hn'.
  rewrite (IH n' rest) by lia. done.
Qed.

(** The loop for the marker pattern, without the fuel. *)
Lemma scan_marker s :
  scan MARKER s =
  match sre_search MARKER false s with
  | None => ([], s)
  | Some (pre, m, rest) =>
      let '(ms, tl) := scan MARKER rest in
      (Found pre (take (length s - length pre - length rest) (drop (length pre) s)) m :: ms, tl)
  end.
Proof.
  unfold scan. cbn [scan_loop Nat.mul Nat.add].
  replace (length s + (length s + 0) + 2) with (S (2 * length s + 1)) by lia.
  cbn [scan_loop].
  destruct (sre_search MARKER false s) as [[[pre m] rest]|] eqn:E; [|done].
  destruct (marker_search_inv _ _ _ _ E) as (a & b & name & c & -> & Hne & _).
  rewrite matched_cut. pose proof (marker_text_length a b name c) as Hw.
  rewrite bool_decide_false by (intros H; rewrite H in Hw; simpl in Hw; lia).
  rewrite !length_app.
  rewrite (scan_loop_fuel _ (length rest + (length rest + 0) + 2) rest) by lia.
  done.
Qed.

Lemma scan_scans s : scans s (scan MARKER s).1 (scan MARKER s).2.
Proof.
  remember (length s) as k eqn:Hk. revert s Hk.
  induction (lt_wf k) as [k _ IH]. intros s ->.
  rewrite scan_marker.
  destruct (sre_search MARKER false s) as [[[pre m] rest]|] eqn:E.
  - destruct (marker_search_inv _ _ _ _ E) as (a & b & name & c & -> & Hne & Hname & Hg).
    rewrite matched_cut. pose proof (marker_text_length a b name c) as Hw.
    specialize (IH (length rest)). rewrite !length_app in IH.
    specialize (IH ltac:(lia) rest eq_refl).
    destruct (scan MARKER rest) as [ms tl]. by apply scans_cut.
  - by apply scans_end.
Qed.

(** ** The parsed list and the tokens *)

Lemma pairwise_flat {A} (l : list (A * A)) :
  pairwise (flat_map (λ o, [o.1; o.2]) l) = l.
Proof. induction l as [|[a b] l IH]; simpl; by rewrite ?IH. Qed.

(** The flat list [re.split] builds, read as a head and pairs. *)
Lemma split_shape (nm : found → text) (ms : list found) (tl : text) :
  flat_map (λ f, [before f; nm f]) ms ++ [tl]
  = hd [] (map before ms ++ [tl])
    :: flat_map (λ o, [o.1; o.2]) (zip (map nm ms) (tail (map before ms ++ [tl]))).
Proof.
  induction ms as [|f ms IH]; [done|].
  cbn [flat_map map app hd tail]. rewrite IH.
  destruct (map before ms ++ [tl]) as [|h t] eqn:E; [by destruct ms|]. done.
Qed.

Lemma split_tokens s :
  split MARKER s
  = preamble s :: flat_map (λ o, [o.1; o.2]) (zip (names s) (segments s)).
Proof.
  unfold split, preamble, segments, cuts, names, finditer.
  destruct (scan MARKER s) as [ms tl]. apply split_shape.
Qed.

Lemma segments_length s : length (segments s) = length (names s).
Proof.
  unfold segments, cuts, names, finditer. destruct (scan MARKER s) as [ms tl].
  cbn [fst snd].
  destruct (map before ms ++ [tl]) as [|h t] eqn:E; [by destruct ms|].
  apply (f_equal length) in E. rewrite length_app, length_map in E.
  cbn [tail length] in *. rewrite length_map. lia.
Qed.

Lemma names_length s : length (names s) = length (finditer MARKER s).
Proof. unfold names. by rewrite length_map. Qed.

Lemma exports_tokens main_name s :
  exports main_name (split MARKER s)
  = (if bool_decide (preamble s ≠ []) then [(main_name, preamble s)] else [])
    ++ zip (names s) (segments s).
Proof. rewrite split_tokens. unfold exports. by rewrite pairwise_flat. Qed.

(** ** The run *)

Lemma bind_ret {A B} (a : A) (k : A → M B) : bind (ret a) k = k a.
Proof. done. Qed.

Lemma export_run name contents w :
  exportable (sys w) name contents →
  export name contents w
  = (inr tt, World (<[resolve (sys w) name := contents]> (files w)) (sys w)
                   (trace w ++ [EvOpen name Wr; EvWrite name contents])).
Proof.
  intros (Hopen & Hdev & Htorn). unfold export, bind, open_w, write.
  rewrite Hopen. unfold store, log. cbn [sys files trace]. rewrite Hdev.
  cbn [sys files trace]. rewrite Htorn, Hdev.
  by rewrite insert_insert_eq, <-app_assoc.
Qed.

Lemma for_each_export outs w :
  Forall (λ out, exportable (sys w) out.1 out.2) outs →
  for_each outs (λ '(sub_name, sub_contents), export sub_name sub_contents) w
  = (inr tt, World (write_all (sys w) outs (files w)) (sys w)
                   (trace w ++ export_events outs)).
Proof.
  revert w. induction outs as [|[n c] outs IH]; intros w Hd.
  - destruct w. cbn. by rewrite app_nil_r.
  - apply Forall_cons in Hd as [Hn Hd]. cbn [for_each]. unfold bind at 1.
    rewrite export_run by done. rewrite IH by done. cbn. by rewrite <-app_assoc.
Qed.

(** A run on a [.split] path whose file is there: the file is read, then
    the exports are looped over. *)
Lemma main_exports prog name stripped contents w :
  splitext name = (stripped, str ".split") →
  files w !! resolve (sys w) name = Some contents →
  main [prog; name] w
  = for_each (exports stripped (split MARKER contents))
             (λ '(sub_name, sub_contents), export sub_name sub_contents)
             (log (EvRead name) (log (EvOpen name Rd) w)).
Proof.
  intros Hext Hfile. unfold main. cbn [length index lookup list_lookup].
  rewrite !bool_decide_true by lia. cbn [assert]. rewrite !bind_ret, Hext.
  rewrite !bool_decide_true by done. cbn [assert]. rewrite !bind_ret.
  rewrite exports_tokens.
  unfold bind at 1. unfold open_r. rewrite Hfile.
  unfold bind at 1. unfold read. cbn [files sys log]. rewrite Hfile.
  rewrite split_tokens. cbn [pop0]. rewrite bind_ret. cbn beta iota.
  rewrite pairwise_flat.
  by destruct (bool_decide (preamble contents ≠ [])).
Qed.

Lemma writable_exports o stripped contents :
  writable o stripped contents →
  Forall (λ out, exportable o out.1 out.2) (exports stripped (split MARKER contents)).
Proof.
  intros [Hpre Hpairs]. rewrite exports_tokens. apply Forall_app. split; [|done].
  case_bool_decide; constructor; [by apply Hpre|constructor].
Qed.

(** The run that goes through, told with the tokens of the document. *)
Lemma main_run_tokens fs o prog name stripped contents :
  splitext name = (stripped, str ".split") →
  fs !! resolve o name = Some contents →
  writable o stripped contents →
  let outs := (if bool_decide (preamble contents ≠ [])
               then [(stripped, preamble contents)] else [])
              ++ zip (names contents) (segments contents) in
  main [prog; name] (boot fs o)
  = (inr tt, World (write_all o outs fs) o ([EvOpen name Rd; EvRead name] ++ export_events outs)).
Proof.
  intros Hext Hfile Hw. cbn zeta. rewrite <-exports_tokens.
  rewrite (main_exports prog name stripped contents) by done.
  rewrite for_each_export by by apply writable_exports. done.
Qed.

(** ** Splitting around a marker *)

Lemma scan_nil : scan MARKER [] = ([], []).
Proof. done. Qed.

(** A marker text alone splits into an empty preamble, its name and an
    empty segment. *)
Lemma split_marker_text a b name c :
  name ≠ [] → Forall (λ x, x ≠ sp) name →
  split MARKER (marker_text a b name c) = [[]; name; []].
Proof.
  intros Hne Hname.
  destruct (marker_match_whole (marker_text a b name c) a b name c Hne Hname)
    as (m & Hm & Hg).
  unfold split. rewrite scan_marker, (search_here _ _ _ _ Hm), scan_nil.
  cbn [flat_map app before fmarks]. by rewrite Hg.
Qed.

(** A character that is not a slash, put before a document, goes to the
    head of the parsed list and changes nothing else. *)
Lemma split_skip x s :
  x ≠ "/"%char →
  split MARKER (x :: s)
  = match split MARKER s with
    | h :: r => (x :: h) :: r
    | [] => []
    end.
Proof.
  intros Hx. unfold split.
  rewrite (scan_marker (x :: s)), search_skip by by apply marker_needs_slash.
  rewrite (scan_marker s).
  destruct (sre_search MARKER false s) as [[[pre m] rest]|]; [|done].
  destruct (scan MARKER rest) as [ms tl]. done.
Qed.

(** ** The tokens laid out in the document *)

Lemma scans_round_trip s ms tl :
  scans s ms tl →
  s = hd [] (map before ms ++ [tl])
      ++ concat (zip_with app (map matched ms) (tail (map before ms ++ [tl]))).
Proof.
  induction 1 as [s Hs|pre a b name c m rest ms tl Hs Hne Hname Hg Hrest IH].
  - cbn. by rewrite app_nil_r.
  - cbn [map app hd tail]. f_equal.
    destruct (map before ms ++ [tl]) as [|h t] eqn:E; [by destruct ms|].
    cbn [zip_with concat hd tail] in *. by rewrite <-app_assoc, <-IH.
Qed.

Lemma scans_markers s ms tl :
  scans s ms tl →
  Forall2 (λ line n, (∃ a b c, line = marker_text a b n c) ∧ recognized line n)
          (map matched ms) (map (λ f, default [] (group (fmarks f) 1)) ms).
Proof.
  induction 1 as [s Hs|pre a b name c m rest ms tl Hs Hne Hname Hg Hrest IH].
  - constructor.
  - cbn [map matched fmarks]. rewrite Hg. constructor; [|done]. split.
    + by exists a, b, c.
    + by apply split_marker_text.
Qed.

Lemma scans_none s tl : scans s [] tl → tl = s.
Proof. by inversion 1. Qed.

(** A document without markers is its own preamble. *)
Lemma no_marker_tokens s :
  finditer MARKER s = [] → preamble s = s ∧ names s = [] ∧ segments s = [].
Proof.
  unfold preamble, segments, cuts, names, finditer.
  pose proof (scan_scans s) as Hs. destruct (scan MARKER s) as [ms tl].
  cbn [fst snd] in *. intros ->. by apply scans_none in Hs as ->.
Qed.

(** ** The files after the exports *)

Lemma writes_of_export_events outs : writes_of (export_events outs) = outs.
Proof.
  induction outs as [|[n g] outs IH]; [done|].
  change ((n, g) :: writes_of (export_events outs) = (n, g) :: outs).
  by rewrite IH.
Qed.

Lemma write_all_other o outs fs (file : inode) :
  (∀ out, out ∈ outs → resolve o out.1 ≠ file) →
  write_all o outs fs !! file = fs !! file.
Proof.
  revert fs. induction outs as [|out outs IH]; intros fs Hp; [done|].
  cbn [write_all foldl]. fold (write_all o outs (<[resolve o out.1:=out.2]> fs)).
  rewrite IH by (intros out' Ho'; apply Hp; by right).
  apply lookup_insert_ne, Hp. by left.
Qed.

(** The last export to a file decides its contents. *)
Lemma write_all_last o outs fs k p g :
  outs !! k = Some (p, g) →
  (∀ j out, k < j → outs !! j = Some out → resolve o out.1 ≠ resolve o p) →
  write_all o outs fs !! resolve o p = Some g.
Proof.
  revert fs k. induction outs as [|out outs IH]; intros fs k Hk Hlast; [done|].
  cbn [write_all foldl]. fold (write_all o outs (<[resolve o out.1:=out.2]> fs)).
  destruct k as [|k]; cbn in Hk.
  - injection Hk as ->. rewrite write_all_other; [by rewrite lookup_insert_eq|].
    intros out [j Hj]%list_elem_of_lookup. by apply (Hlast (S j)); [lia|].
  - apply (IH _ k); [done|]. intros j out' Hj Ho'. by apply (Hlast (S j)); [lia|].
Qed.

(** The files after the exports are those before and those exported to. *)
Lemma write_all_dom o outs fs :
  dom (write_all o outs fs) = dom fs ∪ list_to_set (resolve o <$> outs.*1).
Proof.
  revert fs. induction outs as [|out outs IH]; intros fs.
  - cbn. by rewrite (right_id_L ∅ (∪)).
  - cbn [write_all foldl]. fold (write_all o outs (<[resolve o out.1:=out.2]> fs)).
    rewrite IH, dom_insert_L. cbn [fmap list_fmap list_to_set].
    by rewrite (comm_L (∪) {[resolve o out.1]} (dom fs)), <-(assoc_L (∪)).
Qed.

Lemma zip_names_fst s : (zip (names s) (segments s)).*1 = names s.
Proof. apply fst_zip. by rewrite segments_length. Qed.

Lemma zip_names_lookup s i n g :
  names s !! i = Some n → segments s !! i = Some g →
  zip (names s) (segments s) !! i = Some (n, g).
Proof. intros Hn Hg. rewrite lookup_zip_with, Hn. cbn. by rewrite Hg. Qed.

Lemma zip_names_lookup_inv s i n g :
  zip (names s) (segments s) !! i = Some (n, g) →
  names s !! i = Some n ∧ segments s !! i = Some g.
Proof.
  intros H. apply lookup_zip_with_Some in H as (n' & g' & [= <- <-] & Hn & Hg). done.
Qed.

(** The names of the files exported to are the targets. *)
Lemma outs_targets stripped contents :
  ((if bool_decide (preamble contents ≠ [])
    then [(stripped, preamble contents)] else [])
   ++ zip (names contents) (segments contents)).*1
  = targets stripped contents.
Proof.
  unfold targets. rewrite fmap_app, zip_names_fst. by case_bool_decide.
Qed.

(** [splitext] cuts the path in two. *)
Lemma skip_dots_app n p i d a b : skip_dots n p i d = Some (a, b) → p = a ++ b.
Proof.
  revert i. induction n as [|n IH]; intros i; cbn [skip_dots]; [done|].
  destruct (i <? d)%Z; [|done]. case_bool_decide.
  - intros [= <- <-]. by rewrite take_drop.
  - apply IH.
Qed.

Lemma splitext_app p a b : splitext p = (a, b) → p = a ++ b.
Proof.
  unfold splitext. destruct (rfind "." p >? rfind "/" p)%Z.
  - destruct (skip_dots _ _ _ _) as [[a' b']|] eqn:E.
    + intros [= <- <-]. by apply skip_dots_app in E.
    + intros [= <- <-]. by rewrite app_nil_r.
  - intros [= <- <-]. by rewrite app_nil_r.
Qed.

(** ** More on the marker pattern *)

(** A repetition succeeds as soon as some run of accepted characters, long
    enough, is followed by a match of the rest of the pattern. *)
Lemma repeat_one_complete {R} i min (k : text → option R) (n t : text) :
  Forall (λ c, accepts i c = true) n → min ≤ length n → k t ≠ None →
  repeat_one i min k (n ++ t) ≠ None.
Proof.
  intros Hn. revert min. induction Hn as [|c n Hc Hn IH]; intros min Hmin Hk.
  - simpl in Hmin. assert (min = 0) as -> by lia. cbn [app].
    destruct t as [|c t]; [done|]. cbn [repeat_one].
    destruct (accepts i c); [|done]. by destruct (repeat_one i (pred 0) k t).
  - cbn [app repeat_one]. rewrite Hc.
    specialize (IH (pred min) ltac:(simpl in Hmin; lia) Hk).
    by destruct (repeat_one i (pred min) k (n ++ t)).
Qed.

(** Wherever a marker text lies, the pattern matches there, with one name
    or another. *)
Lemma marker_match_some st a b name c rest :
  name ≠ [] → Forall (λ x, x ≠ sp) name →
  sre_match MARKER st false ∅ (marker_text a b name c ++ rest) ≠ None.
Proof.
  intros Hne Hname. unfold marker_text, MARKER. flatten_app.
  rewrite !match_literal, match_repeat.
  apply repeat_one_complete;
    [apply Forall_literal; by rewrite length_replicate | lia |].
  rewrite !match_literal, match_repeat.
  apply repeat_one_complete;
    [apply Forall_literal; by rewrite length_replicate | lia |].
  rewrite match_mark, match_repeat. fold after_name.
  apply repeat_one_complete.
  - by apply Forall_not_literal.
  - destruct name; simpl; [done|lia].
  - by rewrite after_name_spaces.
Qed.

(** The search takes the leftmost match: the pattern matches nowhere in
    the skipped text. *)
Lemma search_before_none code s pre m rest p1 t :
  sre_search code false s = Some (pre, m, rest) →
  s = p1 ++ t → length p1 < length pre →
  sre_match code t false ∅ t = None.
Proof.
  revert pre p1. induction s as [|x s IH]; intros pre p1 H Hs Hlen;
    cbn [sre_search] in H.
  - destruct (sre_match code [] false ∅ []) as [[m' r']|]; [|done].
    injection H as <- _ _. simpl in Hlen. lia.
  - destruct (sre_match code (x :: s) false ∅ (x :: s)) as [[m' r']|] eqn:E.
    { injection H as <- _ _. simpl in Hlen. lia. }
    destruct (sre_search code false s) as [[[pre' m'] r']|] eqn:E'; [|done].
    injection H as <- <- <-. destruct p1 as [|y p1].
    + cbn [app] in Hs. by subst t.
    + injection Hs as <- Hs. apply (IH pre' p1); [done..|simpl in Hlen; lia].
Qed.

Lemma split_none s : sre_search MARKER false s = None → split MARKER s = [s].
Proof. intros H. unfold split. by rewrite scan_marker, H. Qed.

Lemma split_cons s pre m rest name :
  sre_search MARKER false s = Some (pre, m, rest) → group m 1 = Some name →
  split MARKER s = pre :: name :: split MARKER rest.
Proof.
  intros H Hg. unfold split. rewrite (scan_marker s), H.
  destruct (scan MARKER rest) as [ms tl]. cbn [flat_map app before fmarks].
  by rewrite Hg.
Qed.

(** No marker lies in the text skipped before a match. *)
Lemma skipped_marker_free s pre m rest :
  sre_search MARKER false s = Some (pre, m, rest) →
  sre_search MARKER false pre = None.
Proof.
  intros H. destruct (sre_search MARKER false pre) as [[[q m'] r']|] eqn:E; [|done].
  exfalso. apply marker_search_inv in E as (a & b & name & c & -> & Hne & Hname & _).
  destruct (search_inv _ _ _ _ _ H) as (s' & -> & _).
  pose proof (marker_text_length a b name c) as Hw.
  assert (sre_match MARKER (marker_text a b name c ++ r' ++ s') false ∅
            (marker_text a b name c ++ r' ++ s') = None) as Hnone.
  { apply (search_before_none _ _ _ _ _ q _ H); [by rewrite <-!app_assoc|].
    rewrite !length_app. lia. }
  by apply marker_match_some in Hnone.
Qed.

Lemma scans_cuts_free s ms tl :
  scans s ms tl →
  Forall (λ g, sre_search MARKER false g = None) (map before ms ++ [tl]).
Proof.
  induction 1 as [s Hs|pre a b name c m rest ms tl Hs Hne Hname Hg Hrest IH].
  - by repeat constructor.
  - cbn [map app before]. constructor; [|done]. by eapply skipped_marker_free.
Qed.

Lemma scans_names s ms tl :
  scans s ms tl →
  Forall (λ n, n ≠ [] ∧ sp ∉ n) (map (λ f, default [] (group (fmarks f) 1)) ms).
Proof.
  induction 1 as [s Hs|pre a b name c m rest ms tl Hs Hne Hname Hg Hrest IH].
  - constructor.
  - cbn [map fmarks]. rewrite Hg. constructor; [|done]. split; [done|].
    rewrite Forall_forall in Hname. intros Hin. by apply (Hname sp).
Qed.

(** ** The extension of a path *)

Lemma rfind_from_spec c (p : text) (i f : Z) :
  ((c ∉ p) ∧ rfind_from c p i f = f) ∨
  (∃ p1 p2, p = p1 ++ c :: p2 ∧ (c ∉ p2) ∧
            rfind_from c p i f = (i + Z.of_nat (length p1))%Z).
Proof.
  revert i f. induction p as [|x p IH]; intros i f; cbn [rfind_from].
  - left. split; [apply not_elem_of_nil|done].
  - destruct (IH (i + 1)%Z (if bool_decide (x = c) then i else f))
      as [[Hp ->]|(p1 & p2 & -> & Hp2 & ->)].
    + case_bool_decide as Hx.
      * subst x. right. exists [], p. split; [done|]. split; [done|]. simpl. lia.
      * left. split; [|done]. apply not_elem_of_cons. by split.
    + right. exists (x :: p1), p2. split; [done|]. split; [done|].
      cbn [length]. lia.
Qed.

Lemma rfind_from_app c (p q : text) (i f : Z) :
  rfind_from c (p ++ q) i f = rfind_from c q (i + Z.of_nat (length p))%Z (rfind_from c p i f).
Proof.
  revert i f. induction p as [|x p IH]; intros i f; cbn [app rfind_from length].
  - f_equal. lia.
  - rewrite IH. f_equal. lia.
Qed.

Lemma rfind_from_absent c (p : text) (i f : Z) : (c ∉ p) → rfind_from c p i f = f.
Proof.
  intros Hp. destruct (rfind_from_spec c p i f) as [[_ ->]|(p1 & p2 & -> & _ & _)]; [done|].
  exfalso. apply Hp, elem_of_app. right. by left.
Qed.

Lemma rfind_last c (p1 p2 : text) :
  (c ∉ p2) → rfind c (p1 ++ c :: p2) = Z.of_nat (length p1).
Proof.
  intros Hp2. unfold rfind. rewrite rfind_from_app. cbn [rfind_from].
  rewrite bool_decide_true by done. rewrite rfind_from_absent by done. lia.
Qed.

Lemma rfind_bounds c (p : text) : (-1 ≤ rfind c p < Z.of_nat (length p))%Z.
Proof.
  unfold rfind. destruct (rfind_from_spec c p 0 (-1)) as [[_ ->]|(p1 & p2 & -> & _ & ->)].
  - lia.
  - rewrite length_app. cbn [length]. lia.
Qed.

Lemma rfind_app_absent c (p q : text) : (c ∉ q) → rfind c (p ++ q) = rfind c p.
Proof. intros Hq. unfold rfind. by rewrite rfind_from_app, rfind_from_absent. Qed.

(** [p[j:j+1]] is the character at [j]. *)
Lemma slice_one (p : text) (j : Z) x :
  (0 ≤ j)%Z → p !! Z.to_nat j = Some x → slice p j (j + 1) = [x].
Proof.
  intros Hj Hx. unfold slice.
  replace (Z.to_nat (j + 1) - Z.to_nat j) with 1 by lia.
  destruct (drop (Z.to_nat j) p) as [|y t] eqn:E.
  - apply (f_equal length) in E. rewrite length_drop in E.
    apply lookup_lt_Some in Hx. simpl in E. lia.
  - assert (drop (Z.to_nat j) p !! 0 = Some x) as H0.
    { by rewrite lookup_drop, Nat.add_0_r. }
    rewrite E in H0. by injection H0 as ->.
Qed.

(** The loop finds a character that is not a dot exactly when there is one
    between its start and the last dot. *)
Lemma skip_dots_found n (p : text) (i d j : Z) x :
  (i ≤ j < d)%Z → (0 ≤ i)%Z → p !! Z.to_nat j = Some x → x ≠ "."%char →
  Z.to_nat (d - i) ≤ n →
  skip_dots n p i d = Some (take (Z.to_nat d) p, drop (Z.to_nat d) p).
Proof.
  revert i. induction n as [|n IH]; intros i Hj Hi Hx Hdot Hn; [lia|].
  cbn [skip_dots]. rewrite (proj2 (Z.ltb_lt i d)) by lia.
  case_bool_decide as Hs; [done|].
  apply IH; [|lia|done|done|lia].
  destruct (decide (i = j)) as [->|Hne]; [|lia].
  exfalso. rewrite (slice_one p j x) in Hs by done. congruence.
Qed.

Lemma skip_dots_inv n (p : text) (i d : Z) r :
  (0 ≤ i)%Z → skip_dots n p i d = Some r →
  r = (take (Z.to_nat d) p, drop (Z.to_nat d) p) ∧
  ∃ j, (i ≤ j < d)%Z ∧ slice p j (j + 1) ≠ ["."%char].
Proof.
  revert i. induction n as [|n IH]; intros i Hi; cbn [skip_dots]; [done|].
  destruct (i <? d)%Z eqn:Hlt; [|done]. apply Z.ltb_lt in Hlt.
  case_bool_decide as Hs.
  - intros [= <-]. split; [done|]. exists i. split; [lia|done].
  - intros H. apply IH in H as (-> & j & Hj & Hsj); [|lia].
    split; [done|]. exists j. split; [lia|done].
Qed.

(** [splitext] on a path that ends in [.split]: the last dot is the one of
    [.split], the last slash is that of what comes before. *)
Lemma splitext_dot_split (root : text) :
  splitext (root ++ str ".split")
  = if (Z.of_nat (length root) >? rfind "/" root)%Z then
      match skip_dots (Z.to_nat (Z.of_nat (length root) - rfind "/" root))
                      (root ++ str ".split") (rfind "/" root + 1) (Z.of_nat (length root)) with
      | Some r => r
      | None => (root ++ str ".split", [])
      end
    else (root ++ str ".split", []).
Proof.
  unfold splitext.
  assert (rfind "." (root ++ str ".split") = Z.of_nat (length root)) as ->.
  { apply (rfind_last "." root (str "split")). unfold str. cbn. not_among. }
  assert (rfind "/" (root ++ str ".split") = rfind "/" root) as ->.
  { apply rfind_app_absent. unfold str. cbn. not_among. }
  done.
Qed.

(** The extension is [.split] exactly for the paths made of a root and
    [.split] where the file name of the root has a character that is not
    a dot. *)
Lemma splitext_split_iff (p root : text) :
  splitext p = (root, str ".split") ↔
  p = root ++ str ".split" ∧ ∃ x, x ∈ basename root ∧ x ≠ "."%char.
Proof.
  pose proof (rfind_bounds "/" root) as Hsep. split.
  - intros H. pose proof (splitext_app _ _ _ H) as ->. split; [done|].
    rewrite splitext_dot_split in H.
    destruct (Z.of_nat (length root) >? rfind "/" root)%Z; [|by injection H].
    destruct (skip_dots _ _ _ _) as [r|] eqn:E; [|by injection H].
    apply skip_dots_inv in E as (_ & j & Hj & Hsj); [|lia].
    destruct (lookup_lt_is_Some_2 root (Z.to_nat j) ltac:(lia)) as [x Hx].
    exists x. split.
    + unfold basename. apply list_elem_of_lookup.
      exists (Z.to_nat j - Z.to_nat (rfind "/" root + 1)).
      rewrite lookup_drop, <-Hx. f_equal. lia.
    + intros ->. apply Hsj, slice_one; [lia|]. by rewrite lookup_app_l by lia.
  - intros [-> (x & Hx & Hdot)]. rewrite splitext_dot_split.
    rewrite (proj2 (Z.gtb_gt _ _)) by lia.
    unfold basename in Hx. apply list_elem_of_lookup in Hx as [k Hk].
    rewrite lookup_drop in Hk. pose proof (lookup_lt_Some _ _ _ Hk) as Hlt.
    rewrite (skip_dots_found _ _ _ _
               (Z.of_nat (Z.to_nat (rfind "/" root + 1) + k)) x);
      [|lia|lia| |done|lia].
    + rewrite Nat2Z.id. by rewrite take_app_length, drop_app_length.
    + rewrite Nat2Z.id. by rewrite lookup_app_l by lia.
Qed.

(** ** Recognized lines and sample runs *)

(** What is recognized, line or not. *)
Lemma recognized_iff (line name : text) :
  recognized line name ↔
  ∃ a b c, line = marker_text a b name c ∧ name ≠ [] ∧ Forall (λ x, x ≠ sp) name.
Proof.
  split.
  - unfold recognized, split. pose proof (scan_scans line) as Hs.
    destruct (scan MARKER line) as [ms tl]. cbn [fst snd] in Hs. intros H.
    destruct ms as [|f [|f' ms]]; cbn [flat_map app] in H; [done| |done].
    injection H as Hpre Hname ->.
    inversion Hs as [|pre a b name' c m rest ms' tl' Hsearch Hne Hrun Hg Hrest];
      subst.
    inversion Hrest; subst. cbn [before fmarks] in *. rewrite Hg.
    exists a, b, c. subst pre. by rewrite app_nil_r.
  - intros (a & b & c & -> & Hne & Hname). by apply split_marker_text.
Qed.

(** The group is greedy and a line feed is not a space: when no space
    follows the name on its line, the name runs on over the next lines, up
    to the last line feed before the next space. *)
Remark name_runs_over_lines :
  split MARKER (str "// FILE: x.txt" ++ [nl] ++ str "foo" ++ [nl])
  = [[]; str "x.txt" ++ [nl] ++ str "foo"; []].
Proof. by vm_compute. Qed.

Lemma pairwise_leftover {A} (n : nat) (l : list A) :
  length l ≤ n →
  ∃ odd, l = flat_map (λ o, [o.1; o.2]) (pairwise l) ++ odd ∧ length odd ≤ 1.
Proof.
  revert l. induction n as [|n IH]; intros [|a [|b l]] Hn; simpl in Hn; try lia.
  - exists []. simpl. auto with lia.
  - exists []. simpl. auto with lia.
  - exists [a]. simpl. auto with lia.
  - destruct (IH l ltac:(lia)) as (odd & Hl & Hodd).
    exists odd. split; [|done]. cbn [pairwise flat_map app fst snd]. by rewrite <-Hl.
Qed.

(** ** The first marker of a document *)






(** ** Sample runs *)

(** On the plain systems every export to a path without a NUL goes
    through. *)
Lemma plain_exportable p t : (NUL ∉ p) → exportable plain_os p t.
Proof. intros H. split; [|done]. unfold open_error. by rewrite bool_decide_false. Defined.

Lemma posix_exportable p t : (NUL ∉ p) → exportable posix_os p t.
Proof. intros H. split; [|done]. unfold open_error. by rewrite bool_decide_false. Defined.

Lemma plain_writable stripped doc :
  (NUL ∉ stripped) → Forall (λ n, NUL ∉ n) (names doc) → writable plain_os stripped doc.
Proof.
  intros Hs Hn. split; [intros _; by apply plain_exportable|].
  apply Forall_forall. intros out Hout. apply plain_exportable.
  rewrite Forall_forall in Hn. apply Hn. rewrite <-zip_names_fst.
  by apply list_elem_of_fmap_2.
Defined.

Lemma posix_writable stripped doc :
  (NUL ∉ stripped) → Forall (λ n, NUL ∉ n) (names doc) → writable posix_os stripped doc.
Proof.
  intros Hs Hn. split; [intros _; by apply posix_exportable|].
  apply Forall_forall. intros out Hout. apply posix_exportable.
  rewrite Forall_forall in Hn. apply Hn. rewrite <-zip_names_fst.
  by apply list_elem_of_fmap_2.
Defined.

(** The sample file is there, has the extension, and every export goes
    through. *)
Lemma sample_ready doc :
  Forall (λ n, NUL ∉ n) (names doc) →
  splitext sample_path = (str "a", str ".split") ∧
  sample_fs plain_os doc !! resolve plain_os sample_path = Some doc ∧
  writable plain_os (str "a") doc.
Proof.
  intros Hn. split; [by vm_compute|]. split; [apply lookup_singleton_eq|].
  apply plain_writable; [|done]. unfold str. cbn. not_among.
Defined.

Lemma sample_names : Forall (λ n, NUL ∉ n) (names sample_doc).
Proof.
  replace (names sample_doc) with [str "x.txt"; str "y.txt"] by (vm_compute; reflexivity).
  repeat constructor; unfold str; cbn; not_among.
Defined.

Lemma twice_names : Forall (λ n, NUL ∉ n) (names twice_doc).
Proof.
  replace (names twice_doc) with [str "x"; str "x"] by (vm_compute; reflexivity).
  repeat constructor; unfold str; cbn; not_among.
Defined.

Lemma alias_names : Forall (λ n, NUL ∉ n) (names alias_doc).
Proof.
  replace (names alias_doc) with [str "x"; str "x"; str "./x"] by (vm_compute; reflexivity).
  repeat constructor; unfold str; cbn; not_among.
Defined.

Lemma bare_names : Forall (λ n, NUL ∉ n) (names bare_doc).
Proof.
  replace (names bare_doc) with [str "name" ++ [nl] ++ str "foo"] by (vm_compute; reflexivity).
  repeat constructor; unfold str, nl; cbn; not_among.
Defined.

(** ** The file of a marker after the run *)

(** After the exports of a run, the file a marker leads to holds the
    segment of that marker, unless a later marker leads to the same
    file. *)
Lemma write_all_marker o stripped contents fs (i : nat) (n g : text) :
  names contents !! i = Some n →
  segments contents !! i = Some g →
  (∀ j n', i < j → names contents !! j = Some n' → resolve o n' ≠ resolve o n) →
  write_all o ((if bool_decide (preamble contents ≠ [])
                then [(stripped, preamble contents)] else [])
               ++ zip (names contents) (segments contents)) fs
  !! resolve o n = Some g.
Proof.
  intros Hn Hg Hlast.
  set (pre := if bool_decide (preamble contents ≠ [])
              then [(stripped, preamble contents)] else []).
  apply (write_all_last _ _ _ (length pre + i)).
  - rewrite lookup_app_r by lia. replace (length pre + i - length pre) with i by lia.
    by apply zip_names_lookup.
  - intros j [n' g'] Hj Ho. rewrite lookup_app_r in Ho by lia.
    apply zip_names_lookup_inv in Ho as [Hn' _].
    apply (Hlast (j - length pre)); [lia|done].
Qed.

(** The exports of a run leave alone the files that no target leads to. *)
Lemma write_all_untouched o stripped contents fs (file : inode) :
  (file ∉ resolve o <$> targets stripped contents) →
  write_all o ((if bool_decide (preamble contents ≠ [])
                then [(stripped, preamble contents)] else [])
               ++ zip (names contents) (segments contents)) fs
  !! file = fs !! file.
Proof.
  intros Hfile. apply write_all_other. intros out Hout Heq. apply Hfile.
  rewrite <-Heq, <-outs_targets. by apply list_elem_of_fmap_2, list_elem_of_fmap_2.
Qed.

(** ** The claims *)

(** C1: the parsed list is the preamble followed by as many target names
    as segments, paired in the order of the document: each name is the
    name of a marker text, and the preamble, then each marker text with
    its segment, make up the document.  A run on a readable [.split] file
    whose exports go through makes, after the write of a preamble that is
    not empty, one write per pair in that order, and the files it leaves
    are those it found with each segment stored, as it is and in that
    order, in the file its target name leads to: after the run the file
    of a marker holds the segment of that marker, unless a later marker
    leads to the same file, and a file that no target leads to is as it
    was. *)
Theorem pairs_written_in_order fs o prog name stripped contents :
  splitext name = (stripped, str ".split") →
  fs !! resolve o name = Some contents →
  writable o stripped contents →
  let pairs := zip (names contents) (segments contents) in
  let outs := (if bool_decide (preamble contents ≠ [])
               then [(stripped, preamble contents)] else []) ++ pairs in
  length (names contents) = length (segments contents) ∧
  pairwise (tail (split MARKER contents)) = pairs ∧
  Forall2 (λ line n, ∃ a b c, line = marker_text a b n c)
          (marker_lines contents) (names contents) ∧
  contents
  = preamble contents ++ concat (zip_with app (marker_lines contents) (segments contents)) ∧
  ∃ w, main [prog; name] (boot fs o) = (inr tt, w) ∧
       writes_of (trace w) = outs ∧
       files w = write_all o outs fs ∧
       (∀ i n g, names contents !! i = Some n → segments contents !! i = Some g →
                 (∀ j n', i < j → names contents !! j = Some n' →
                          resolve o n' ≠ resolve o n) →
                 files w !! resolve o n = Some g) ∧
       (∀ file, (file ∉ resolve o <$> targets stripped contents) →
                files w !! file = fs !! file).
Proof.
  intros Hext Hfile Hw pairs outs.
  split; [by rewrite segments_length|].
  split; [rewrite split_tokens; cbn [tail]; apply pairwise_flat|].
  split.
  { unfold marker_lines, names, finditer.
    eapply Forall2_impl; [apply (scans_markers contents _ _ (scan_scans contents))|].
    by intros line n [H _]. }
  split.
  { unfold preamble, segments, cuts, marker_lines, finditer.
    apply scans_round_trip, scan_scans. }
  eexists. split; [by apply main_run_tokens|].
  split; [cbn [trace app writes_of flat_map]; apply writes_of_export_events|].
  split; [done|]. cbn [files]. split.
  - intros i n g. apply write_all_marker.
  - intros file. apply write_all_untouched.
Qed.

Lemma pairs_written_in_order_witness :
  (splitext sample_path = (str "a", str ".split") ∧
   sample_fs plain_os sample_doc !! resolve plain_os sample_path = Some sample_doc ∧
   writable plain_os (str "a") sample_doc) ∧
  let pairs := zip (names sample_doc) (segments sample_doc) in
  let outs := (if bool_decide (preamble sample_doc ≠ [])
               then [(str "a", preamble sample_doc)] else []) ++ pairs in
  length (names sample_doc) = length (segments sample_doc) ∧
  pairwise (tail (split MARKER sample_doc)) = pairs ∧
  Forall2 (λ line n, ∃ a b c, line = marker_text a b n c)
          (marker_lines sample_doc) (names sample_doc) ∧
  sample_doc
  = preamble sample_doc
    ++ concat (zip_with app (marker_lines sample_doc) (segments sample_doc)) ∧
  ∃ w, main [script; sample_path] (boot (sample_fs plain_os sample_doc) plain_os) = (inr tt, w) ∧
       writes_of (trace w) = outs ∧
       files w = write_all plain_os outs (sample_fs plain_os sample_doc) ∧
       (∀ i n g, names sample_doc !! i = Some n → segments sample_doc !! i = Some g →
                 (∀ j n', i < j → names sample_doc !! j = Some n' →
                          resolve plain_os n' ≠ resolve plain_os n) →
                 files w !! resolve plain_os n = Some g) ∧
       (∀ file, (file ∉ resolve plain_os <$> targets (str "a") sample_doc) →
                files w !! file = sample_fs plain_os sample_doc !! file).
Proof.
  pose proof (sample_ready sample_doc sample_names) as H.
  split; [exact H|]. destruct H as (H1 & H2 & H3).
  exact (pairs_written_in_order _ _ script _ _ _ H1 H2 H3).
Defined.

(** C2: the preamble, then each marker's text followed by its segment, in
    order, give back the document character for character; there are as
    many marker texts as segments, and each marker text is a marker line
    naming its target. *)
Theorem split_round_trip (s : text) :
  length (marker_lines s) = length (segments s) ∧
  Forall2 (λ line n, (∃ a b c, line = marker_text a b n c) ∧ recognized line n)
          (marker_lines s) (names s) ∧
  s = preamble s ++ concat (zip_with app (marker_lines s) (segments s)).
Proof.
  split; [|split].
  - rewrite segments_length. unfold marker_lines, names. by rewrite !length_map.
  - unfold marker_lines, names, finditer. apply (scans_markers s _ _ (scan_scans s)).
  - unfold preamble, segments, cuts, marker_lines, finditer.
    apply scans_round_trip, scan_scans.
Qed.




(** C4, amended: markers are recognized wherever the pattern matches, at
    the start of a line or not.  Content without a slash put before a
    document, whether it ends a line or not, only lengthens the preamble:
    every marker of the document is recognized as before, the first one
    too when the content sits on its line. *)
Theorem marker_found_mid_line (pre s p : text) (l : list text) :
  ("/"%char ∉ pre) → split MARKER s = p :: l →
  split MARKER (pre ++ s) = (pre ++ p) :: l.
Proof.
  intros Hpre Hs. induction pre as [|x pre IH]; [done|].
  apply not_elem_of_cons in Hpre as [Hx Hpre].
  cbn [app]. rewrite split_skip, IH by done. done.
Qed.

Lemma marker_found_mid_line_witness :
  ("/"%char ∉ str "abc ") ∧
  split MARKER (str "// FILE: x" ++ [nl]) = [] :: [str "x"; []] ∧
  split MARKER (str "abc " ++ str "// FILE: x" ++ [nl]) = (str "abc " ++ []) :: [str "x"; []].
Proof.
  assert ("/"%char ∉ str "abc ") as H1.
  { unfold str. cbn. not_among. }
  assert (split MARKER (str "// FILE: x" ++ [nl]) = [] :: [str "x"; []]) as H2
    by (vm_compute; reflexivity).
  exact (conj H1 (conj H2 (marker_found_mid_line _ _ _ _ H1 H2))).
Defined.

(** C4 as worded fails: in [abc // FILE: x] the marker begins in the
    middle of the line, after [abc ], and it is treated as a marker, the
    content before it becoming the preamble. *)
Lemma marker_found_mid_line_counterexample :
  recognized (str "// FILE: x" ++ [nl]) (str "x") ∧
  (nl ∉ str "abc ") ∧
  split MARKER (str "abc // FILE: x" ++ [nl]) = [str "abc "; str "x"; []].
Proof.
  split; [|split].
  - unfold recognized. by vm_compute.
  - unfold str. cbn. not_among.
  - by vm_compute.
Qed.

(** C5, amended: on a document with N markers a run whose exports go
    through makes exactly N + 1 writes when the preamble is not empty and
    exactly N when it is empty.  The files it leaves are those it found
    and those its targets lead to; these are N + 1, or N, output files
    when the target names and the name of the preamble's file lead to
    files that differ from one another.  (Markers that lead to one file,
    under one name or several, produce one file.) *)
Theorem writes_counted fs o prog name stripped contents :
  splitext name = (stripped, str ".split") →
  fs !! resolve o name = Some contents →
  writable o stripped contents →
  let N := length (finditer MARKER contents) in
  let k := if bool_decide (preamble contents ≠ []) then 1 else 0 in
  let produced : gset inode := list_to_set (resolve o <$> targets stripped contents) in
  ∃ w, main [prog; name] (boot fs o) = (inr tt, w) ∧
       length (writes_of (trace w)) = N + k ∧
       dom (files w) = dom fs ∪ produced ∧
       (NoDup (resolve o <$> targets stripped contents) →
        size produced = N + k ∧
        ((∀ t, t ∈ targets stripped contents → fs !! resolve o t = None) →
         size (files w) = size fs + (N + k))).
Proof.
  intros Hext Hfile Hw N k produced.
  eexists. split; [by apply main_run_tokens|].
  assert (length (names contents) = N) as HN by apply names_length.
  assert (length (targets stripped contents) = N + k) as Hlen.
  { unfold targets. rewrite length_app, HN. subst k. case_bool_decide; simpl; lia. }
  split; [|split].
  - cbn [trace app writes_of flat_map]. rewrite writes_of_export_events.
    rewrite <-Hlen, <-outs_targets. by rewrite length_fmap.
  - cbn [files]. by rewrite write_all_dom, outs_targets.
  - intros Hnd.
    assert (size produced = N + k) as Hsize.
    { subst produced. by rewrite size_list_to_set, length_fmap. }
    split; [done|]. intros Hnew. cbn [files].
    rewrite <-!size_dom, write_all_dom, outs_targets. fold produced.
    rewrite size_union, <-Hsize; [done|].
    intros file Hfs Hprod. subst produced.
    apply elem_of_list_to_set, list_elem_of_fmap in Hprod as (t & -> & Ht).
    apply elem_of_dom in Hfs as [x Hx]. by rewrite Hnew in Hx.
Qed.

Lemma writes_counted_witness :
  (splitext sample_path = (str "a", str ".split") ∧
   sample_fs plain_os sample_doc !! resolve plain_os sample_path = Some sample_doc ∧
   writable plain_os (str "a") sample_doc) ∧
  let N := length (finditer MARKER sample_doc) in
  let k := if bool_decide (preamble sample_doc ≠ []) then 1 else 0 in
  let produced : gset inode :=
    list_to_set (resolve plain_os <$> targets (str "a") sample_doc) in
  ∃ w, main [script; sample_path] (boot (sample_fs plain_os sample_doc) plain_os) = (inr tt, w) ∧
       length (writes_of (trace w)) = N + k ∧
       dom (files w) = dom (sample_fs plain_os sample_doc) ∪ produced ∧
       (NoDup (resolve plain_os <$> targets (str "a") sample_doc) →
        size produced = N + k ∧
        ((∀ t, t ∈ targets (str "a") sample_doc →
               sample_fs plain_os sample_doc !! resolve plain_os t = None) →
         size (files w) = size (sample_fs plain_os sample_doc) + (N + k))).
Proof.
  pose proof (sample_ready sample_doc sample_names) as H.
  split; [exact H|]. destruct H as (H1 & H2 & H3).
  exact (writes_counted _ _ script _ _ _ H1 H2 H3).
Defined.

(** C5 as worded fails when two markers lead to the same file: the
    document has two markers and no preamble, the run makes two writes,
    and one output file is produced, not two. *)
Lemma writes_counted_counterexample :
  length (finditer MARKER twice_doc) = 2 ∧
  preamble twice_doc = [] ∧
  ∃ w, main [script; sample_path] (boot (sample_fs plain_os twice_doc) plain_os) = (inr tt, w) ∧
       length (writes_of (trace w)) = 2 ∧
       size (dom (files w) ∖ dom (sample_fs plain_os twice_doc)) = 1 ∧
       size (files w) = 1 + size (sample_fs plain_os twice_doc).
Proof.
  split; [by vm_compute|]. split; [by vm_compute|].
  destruct (sample_ready twice_doc twice_names) as (H1 & H2 & H3).
  eexists. split; [by apply (main_run_tokens _ _ script _ _ _ H1 H2 H3)|].
  repeat split; by vm_compute.
Qed.

(** C6: on a document without markers that is not empty, a run writes one
    file and no other, the one named as the input path without its
    [.split] extension, with the document as its contents; on an empty
    document it writes nothing. *)
Theorem no_marker_copies_input fs o prog name stripped contents :
  splitext name = (stripped, str ".split") →
  fs !! resolve o name = Some contents →
  finditer MARKER contents = [] →
  (contents ≠ [] → exportable o stripped contents) →
  name = stripped ++ str ".split" ∧
  main [prog; name] (boot fs o)
  = (inr tt,
     World (if decide (contents = []) then fs else <[resolve o stripped := contents]> fs) o
           ([EvOpen name Rd; EvRead name]
            ++ if decide (contents = []) then []
               else [EvOpen stripped Wr; EvWrite stripped contents])).
Proof.
  intros Hext Hfile Hnone Hd. split; [by apply splitext_app|].
  destruct (no_marker_tokens _ Hnone) as (Hpre & Hnames & Hsegs).
  rewrite (main_run_tokens fs o prog name stripped contents Hext Hfile).
  - rewrite Hpre, Hnames, Hsegs. cbn [zip zip_with].
    destruct (decide (contents = [])) as [->|Hne].
    + by rewrite bool_decide_false by naive_solver.
    + by rewrite bool_decide_true.
  - split; [by rewrite Hpre|]. rewrite Hnames. constructor.
Qed.

Lemma no_marker_copies_input_witness :
  (splitext sample_path = (str "a", str ".split") ∧
   sample_fs plain_os (str "hello" ++ [nl]) !! resolve plain_os sample_path
   = Some (str "hello" ++ [nl]) ∧
   finditer MARKER (str "hello" ++ [nl]) = [] ∧
   (str "hello" ++ [nl] ≠ [] → exportable plain_os (str "a") (str "hello" ++ [nl]))) ∧
  sample_path = str "a" ++ str ".split" ∧
  main [script; sample_path] (boot (sample_fs plain_os (str "hello" ++ [nl])) plain_os)
  = (inr tt,
     World (if decide (str "hello" ++ [nl] = []) then sample_fs plain_os (str "hello" ++ [nl])
            else <[resolve plain_os (str "a") := str "hello" ++ [nl]]>
                   (sample_fs plain_os (str "hello" ++ [nl])))
           plain_os
           ([EvOpen sample_path Rd; EvRead sample_path]
            ++ if decide (str "hello" ++ [nl] = []) then []
               else [EvOpen (str "a") Wr; EvWrite (str "a") (str "hello" ++ [nl])])).
Proof.
  assert (splitext sample_path = (str "a", str ".split")) as H1 by (vm_compute; reflexivity).
  assert (sample_fs plain_os (str "hello" ++ [nl]) !! resolve plain_os sample_path
          = Some (str "hello" ++ [nl])) as H2 by apply lookup_singleton_eq.
  assert (finditer MARKER (str "hello" ++ [nl]) = []) as H3 by (vm_compute; reflexivity).
  assert (str "hello" ++ [nl] ≠ [] → exportable plain_os (str "a") (str "hello" ++ [nl])) as H4.
  { intros _. apply plain_exportable. unfold str. cbn. not_among. }
  split; [exact (conj H1 (conj H2 (conj H3 H4)))|].
  exact (no_marker_copies_input _ _ script _ _ _ H1 H2 H3 H4).
Defined.

(** C7: when the argument count is not exactly one ([sys.argv] then does
    not have two entries), or the extension [os.path.splitext] finds in
    the path is not [.split], the run ends in an [AssertionError] with a
    message, and the world is as it was: no file was opened, read or
    written, and the trace of I/O has not grown. *)
Theorem main_rejects_before_io (argv : list text) (w : world) :
  length argv ≠ 2 ∨ (∃ name, argv !! 1 = Some name ∧ (splitext name).2 ≠ str ".split") →
  ∃ msg, msg ≠ ""%string ∧ main argv w = (inl (AssertionError msg), w).
Proof.
  intros H. unfold main.
  destruct (decide (length argv < 2)) as [Hlt|Hge].
  { exists "Expected file path argument"%string. split; [done|].
    by rewrite bool_decide_false by lia. }
  rewrite (bool_decide_true (2 ≤ _)) by lia. cbn [assert]. rewrite bind_ret.
  destruct (decide (2 < length argv)) as [Hgt|Hle].
  { exists "Too many arguments"%string. split; [done|].
    by rewrite bool_decide_false by lia. }
  rewrite bool_decide_true by lia. cbn [assert]. rewrite bind_ret.
  destruct H as [H|(name & Hname & Hext)]; [lia|].
  unfold index. rewrite Hname, bind_ret.
  destruct (splitext name) as [stripped ext]. cbn [snd] in Hext.
  exists "Expected `.split` file"%string. split; [done|].
  by rewrite bool_decide_false.
Qed.

Lemma main_rejects_before_io_witness :
  (length [script] ≠ 2 ∧
   ∃ msg, msg ≠ ""%string ∧
     main [script] (boot ∅ plain_os) = (inl (AssertionError msg), boot ∅ plain_os)) ∧
  ((splitext (str "a.txt")).2 ≠ str ".split" ∧
   ∃ msg, msg ≠ ""%string ∧
     main [script; str "a.txt"]
          (boot {[ resolve plain_os (str "a.txt") := str "x" ]} plain_os)
     = (inl (AssertionError msg),
        boot {[ resolve plain_os (str "a.txt") := str "x" ]} plain_os)).
Proof.
  assert (length [script] ≠ 2) as H1 by (simpl; lia).
  assert ((splitext (str "a.txt")).2 ≠ str ".split") as H2 by (vm_compute; discriminate).
  split; (split; [assumption|]); apply main_rejects_before_io.
  - by left.
  - right. exists (str "a.txt"). by split.
Defined.

(** C8, amended: when several markers lead to the same file, under the
    same target name or under names that differ, the file holds, after
    the run, the segment of the last of them in the document: the run ends
    without an error and the later write has replaced the earlier ones. *)
Theorem last_write_wins fs o prog name stripped contents (i : nat) (n g : text) :
  splitext name = (stripped, str ".split") →
  fs !! resolve o name = Some contents →
  writable o stripped contents →
  names contents !! i = Some n →
  segments contents !! i = Some g →
  (∀ j n', i < j → names contents !! j = Some n' → resolve o n' ≠ resolve o n) →
  ∃ w, main [prog; name] (boot fs o) = (inr tt, w) ∧ files w !! resolve o n = Some g.
Proof.
  intros Hext Hfile Hw Hn Hg Hlast.
  eexists. split; [by apply main_run_tokens|]. cbn [files].
  by apply (write_all_marker _ _ _ _ i).
Qed.

Lemma last_write_wins_witness :
  (splitext sample_path = (str "a", str ".split") ∧
   sample_fs posix_os alias_doc !! resolve posix_os sample_path = Some alias_doc ∧
   writable posix_os (str "a") alias_doc ∧
   names alias_doc !! 2 = Some (str "./x") ∧
   segments alias_doc !! 2 = Some (str "last one" ++ [nl]) ∧
   (∀ j n', 2 < j → names alias_doc !! j = Some n' →
            resolve posix_os n' ≠ resolve posix_os (str "./x"))) ∧
  ∃ w, main [script; sample_path] (boot (sample_fs posix_os alias_doc) posix_os) = (inr tt, w) ∧
       files w !! resolve posix_os (str "./x") = Some (str "last one" ++ [nl]).
Proof.
  assert (splitext sample_path = (str "a", str ".split")) as H1 by (vm_compute; reflexivity).
  assert (sample_fs posix_os alias_doc !! resolve posix_os sample_path = Some alias_doc)
    as H2 by apply lookup_singleton_eq.
  assert (writable posix_os (str "a") alias_doc) as H3.
  { apply posix_writable; [unfold str; cbn; not_among|apply alias_names]. }
  assert (names alias_doc !! 2 = Some (str "./x")) as H4 by (vm_compute; reflexivity).
  assert (segments alias_doc !! 2 = Some (str "last one" ++ [nl])) as H5
    by (vm_compute; reflexivity).
  assert (∀ j n', 2 < j → names alias_doc !! j = Some n' →
                  resolve posix_os n' ≠ resolve posix_os (str "./x")) as H6.
  { intros j n' Hj.
    replace (names alias_doc) with [str "x"; str "x"; str "./x"] by (vm_compute; reflexivity).
    do 3 (destruct j as [|j]; [lia|]). discriminate. }
  split; [exact (conj H1 (conj H2 (conj H3 (conj H4 (conj H5 H6)))))|].
  exact (last_write_wins _ _ script _ _ _ 2 _ _ H1 H2 H3 H4 H5 H6).
Defined.

(** C8 as worded fails when a later marker leads to the same file under
    another name: the target name [x] occurs twice, its last occurrence
    has the segment [baz qux], and a third marker names [./x]; the run
    ends well and the file of [x] holds the segment of the third. *)
Lemma last_write_wins_counterexample :
  names alias_doc = [str "x"; str "x"; str "./x"] ∧
  segments alias_doc !! 1 = Some (str "baz qux" ++ [nl]) ∧
  resolve posix_os (str "./x") = resolve posix_os (str "x") ∧
  ∃ w, main [script; sample_path] (boot (sample_fs posix_os alias_doc) posix_os) = (inr tt, w) ∧
       files w !! resolve posix_os (str "x") = Some (str "last one" ++ [nl]) ∧
       files w !! resolve posix_os (str "x") ≠ Some (str "baz qux" ++ [nl]).
Proof.
  split; [by vm_compute|]. split; [by vm_compute|]. split; [done|].
  assert (splitext sample_path = (str "a", str ".split")) as H1 by (vm_compute; reflexivity).
  assert (sample_fs posix_os alias_doc !! resolve posix_os sample_path = Some alias_doc)
    as H2 by apply lookup_singleton_eq.
  assert (writable posix_os (str "a") alias_doc) as H3.
  { apply posix_writable; [unfold str; cbn; not_among|apply alias_names]. }
  eexists. split; [by apply (main_run_tokens _ _ script _ _ _ H1 H2 H3)|].
  assert (files (World (write_all posix_os
            ((if bool_decide (preamble alias_doc ≠ [])
              then [(str "a", preamble alias_doc)] else [])
             ++ zip (names alias_doc) (segments alias_doc))
            (sample_fs posix_os alias_doc)) posix_os [])
          !! resolve posix_os (str "x") = Some (str "last one" ++ [nl])) as Hx
    by (vm_compute; reflexivity).
  cbn [files] in *. split; [done|]. rewrite Hx. discriminate.
Qed.

(** C9: every marker gets its write, whatever its segment.  After the
    write of the preamble, when there is one, a run whose exports go
    through makes as many writes as the document has markers, the write
    at each place being that of the marker at that place, and the file of
    every marker is there after the run.  In particular a marker whose
    segment is empty, because the next marker or the end of the document
    follows it at once, has its file written with empty contents: the
    file is there after the run, and it is empty unless a later marker
    leads to it too. *)
Theorem empty_segment_written fs o prog name stripped contents :
  splitext name = (stripped, str ".split") →
  fs !! resolve o name = Some contents →
  writable o stripped contents →
  ∃ w, main [prog; name] (boot fs o) = (inr tt, w) ∧
       let subs := drop (if bool_decide (preamble contents ≠ []) then 1 else 0)
                        (writes_of (trace w)) in
       length subs = length (finditer MARKER contents) ∧
       (∀ i n g, names contents !! i = Some n → segments contents !! i = Some g →
                 subs !! i = Some (n, g) ∧ is_Some (files w !! resolve o n)) ∧
       (∀ i n, names contents !! i = Some n → segments contents !! i = Some [] →
               subs !! i = Some (n, []) ∧ EvWrite n [] ∈ trace w ∧
               is_Some (files w !! resolve o n) ∧
               ((∀ j n', i < j → names contents !! j = Some n' →
                         resolve o n' ≠ resolve o n) →
                files w !! resolve o n = Some [])).
Proof.
  intros Hext Hfile Hw.
  eexists. split; [by apply main_run_tokens|].
  cbn [trace files app writes_of flat_map]. rewrite writes_of_export_events.
  set (pre := if bool_decide (preamble contents ≠ [])
              then [(stripped, preamble contents)] else []).
  assert (drop (if bool_decide (preamble contents ≠ []) then 1 else 0)
            (pre ++ zip (names contents) (segments contents))
          = zip (names contents) (segments contents)) as ->
    by (subst pre; by case_bool_decide).
  assert (∀ i n g, names contents !! i = Some n → segments contents !! i = Some g →
            is_Some (write_all o (pre ++ zip (names contents) (segments contents)) fs
                     !! resolve o n)) as Hthere.
  { intros i n g Hn Hg. apply elem_of_dom. rewrite write_all_dom.
    apply elem_of_union_r, elem_of_list_to_set, list_elem_of_fmap_2.
    rewrite fmap_app, zip_names_fst. apply elem_of_app. right.
    apply list_elem_of_lookup. by exists i. }
  split; [|split].
  - by rewrite length_zip_with, segments_length, Nat.min_id, names_length.
  - intros i n g Hn Hg. split; [by apply zip_names_lookup|by apply (Hthere i n g)].
  - intros i n Hn Hg. split; [by apply zip_names_lookup|]. split; [|split].
    + do 2 right. unfold export_events. apply list_elem_of_In, in_flat_map.
      exists (n, []). split; [|by right; left].
      apply list_elem_of_In, elem_of_app. right.
      apply list_elem_of_lookup. exists i. by apply zip_names_lookup.
    + by apply (Hthere i n []).
    + intros Hlast. by apply (write_all_marker _ _ _ _ i).
Qed.

Lemma empty_segment_written_witness :
  (splitext sample_path = (str "a", str ".split") ∧
   sample_fs plain_os sample_doc !! resolve plain_os sample_path = Some sample_doc ∧
   writable plain_os (str "a") sample_doc) ∧
  (names sample_doc !! 1 = Some (str "y.txt") ∧ segments sample_doc !! 1 = Some []) ∧
  ∃ w, main [script; sample_path] (boot (sample_fs plain_os sample_doc) plain_os) = (inr tt, w) ∧
       let subs := drop (if bool_decide (preamble sample_doc ≠ []) then 1 else 0)
                        (writes_of (trace w)) in
       length subs = length (finditer MARKER sample_doc) ∧
       (∀ i n g, names sample_doc !! i = Some n → segments sample_doc !! i = Some g →
                 subs !! i = Some (n, g) ∧ is_Some (files w !! resolve plain_os n)) ∧
       (∀ i n, names sample_doc !! i = Some n → segments sample_doc !! i = Some [] →
               subs !! i = Some (n, []) ∧ EvWrite n [] ∈ trace w ∧
               is_Some (files w !! resolve plain_os n) ∧
               ((∀ j n', i < j → names sample_doc !! j = Some n' →
                         resolve plain_os n' ≠ resolve plain_os n) →
                files w !! resolve plain_os n = Some [])).
Proof.
  pose proof (sample_ready sample_doc sample_names) as H.
  split; [exact H|]. split; [split; vm_compute; reflexivity|].
  destruct H as (H1 & H2 & H3).
  exact (empty_segment_written _ _ script _ _ _ H1 H2 H3).
Defined.

(** C10: the code at the input that fails the claim.  The marker line
    [//FILE:name] is followed by the line [foo]; the marker is found, but
    its target is [name], a line feed and [foo], not [name]: the run
    leaves an empty file of that name, no file [name], and writes [foo]
    nowhere. *)
Theorem bare_marker_runs_on :
  split MARKER bare_doc = [[]; str "name" ++ [nl] ++ str "foo"; []] ∧
  ∃ w, main [script; sample_path] (boot (sample_fs plain_os bare_doc) plain_os) = (inr tt, w) ∧
       writes_of (trace w) = [(str "name" ++ [nl] ++ str "foo", [])] ∧
       files w !! resolve plain_os (str "name" ++ [nl] ++ str "foo") = Some [] ∧
       files w !! resolve plain_os (str "name") = None.
Proof.
  split; [by vm_compute|].
  destruct (sample_ready bare_doc bare_names) as (H1 & H2 & H3).
  eexists. split; [by apply (main_run_tokens _ _ script _ _ _ H1 H2 H3)|].
  repeat split; by vm_compute.
Qed.

(** ** Further properties of the script *)

(** *** [pairwise] *)

(** X1: [pairwise] takes the items two by two, in order, and loses nothing
    but an odd last item: the pairs, laid out again, are the list without
    at most one item at its end. *)
Theorem pairwise_keeps_order {A} (l : list A) :
  ∃ odd, l = flat_map (λ o, [o.1; o.2]) (pairwise l) ++ odd ∧ length odd ≤ 1.
Proof. by apply (pairwise_leftover (length l)). Qed.

(** *** Runs that fail *)

Lemma log_sys e w : sys (log e w) = sys w.
Proof. done. Qed.

Lemma log_files e w : files (log e w) = files w.
Proof. done. Qed.

Lemma store_sys file contents w : sys (store file contents w) = sys w.
Proof. unfold store. by destruct (device (sys w) file). Qed.

Lemma store_other file contents w file' :
  file' ≠ file → files (store file contents w) !! file' = files w !! file'.
Proof.
  intros Hne. unfold store. destruct (device (sys w) file); [done|].
  cbn [files]. by rewrite lookup_insert_ne.
Qed.

Lemma store_keeps file contents w file' :
  is_Some (files w !! file') → is_Some (files (store file contents w) !! file').
Proof.
  intros H. unfold store. destruct (device (sys w) file); [done|]. cbn [files].
  destruct (decide (file = file')) as [->|Hne].
  - by rewrite lookup_insert_eq.
  - by rewrite lookup_insert_ne.
Qed.

Lemma open_error_kind o path e :
  open_error o path = Some e →
  (e = ValueError ∧ NUL ∈ path) ∨ (e = OSError path ∧ NUL ∉ path).
Proof.
  unfold open_error. case_bool_decide; [intros [= <-]; by left|].
  destruct (denied o path); [|done]. intros [= <-]. by right.
Qed.

Lemma export_refused name contents w e :
  open_error (sys w) name = Some e →
  export name contents w = (inl e, log (EvOpen name Wr) w).
Proof. intros He. unfold export, bind, open_w. by rewrite He. Qed.

Lemma export_torn name contents w remains :
  open_error (sys w) name = None →
  torn (sys w) (resolve (sys w) name) contents = Some remains →
  export name contents w
  = (inl (OSError name),
     World (if device (sys w) (resolve (sys w) name) then files w
            else <[resolve (sys w) name := remains]> (files w))
           (sys w) (trace w ++ [EvOpen name Wr; EvWrite name contents])).
Proof.
  intros Hopen Htorn. unfold export, bind, open_w, write. rewrite Hopen.
  rewrite store_sys, log_sys, Htorn. unfold store, log. cbn [sys files trace].
  destruct (device (sys w) (resolve (sys w) name)) eqn:Hdev; cbn [sys files trace];
    rewrite Hdev; [by rewrite <-app_assoc|].
  by rewrite insert_insert_eq, <-app_assoc.
Qed.

(** Whatever the outcome, an [export] ends well or in an error of its I/O,
    removes no file and changes no file but the one its path leads to. *)
Lemma export_any name contents w :
  ∃ r w', export name contents w = (r, w') ∧ io_result r ∧ sys w' = sys w ∧
          (∀ file, file ≠ resolve (sys w) name → files w' !! file = files w !! file) ∧
          (∀ file, is_Some (files w !! file) → is_Some (files w' !! file)).
Proof.
  unfold export, bind, open_w. destruct (open_error (sys w) name) as [e|] eqn:He.
  - eexists _, _. split; [done|]. split; [|done].
    apply open_error_kind in He as [[-> _]|[-> _]]; [by right; right|right; left; by eexists].
  - unfold write. rewrite store_sys, log_sys.
    destruct (torn (sys w) (resolve (sys w) name) contents) as [remains|].
    + eexists _, _. split; [done|]. split; [right; left; by eexists|].
      split; [by rewrite store_sys, log_sys, store_sys|]. split.
      * intros file Hne. by rewrite store_other, log_files, store_other.
      * intros file H. apply store_keeps. rewrite log_files. by apply store_keeps.
    + eexists _, _. split; [done|]. split; [by left|].
      split; [by rewrite store_sys, log_sys, store_sys|]. split.
      * intros file Hne. by rewrite store_other, log_files, store_other.
      * intros file H. apply store_keeps. rewrite log_files. by apply store_keeps.
Qed.

(** The loop stops at the first target that cannot be opened. *)
Lemma for_each_export_stops l1 n g l2 w e :
  Forall (λ out, exportable (sys w) out.1 out.2) l1 →
  open_error (sys w) n = Some e →
  for_each (l1 ++ (n, g) :: l2) (λ '(sub_name, sub_contents), export sub_name sub_contents) w
  = (inl e,
     World (write_all (sys w) l1 (files w)) (sys w)
           (trace w ++ export_events l1 ++ [EvOpen n Wr])).
Proof.
  revert w. induction l1 as [|[n' g'] l1 IH]; intros w Hl1 Hn.
  - cbn [app for_each]. unfold bind at 1. rewrite (export_refused _ _ _ e) by done. done.
  - apply Forall_cons in Hl1 as [Hn' Hl1]. cbn [app for_each]. unfold bind at 1.
    rewrite export_run by done. rewrite IH by done. cbn. by rewrite <-app_assoc.
Qed.

(** The loop stops at the first write that fails. *)
Lemma for_each_export_torn l1 n g l2 w remains :
  Forall (λ out, exportable (sys w) out.1 out.2) l1 →
  open_error (sys w) n = None →
  torn (sys w) (resolve (sys w) n) g = Some remains →
  for_each (l1 ++ (n, g) :: l2) (λ '(sub_name, sub_contents), export sub_name sub_contents) w
  = (inl (OSError n),
     World (if device (sys w) (resolve (sys w) n) then write_all (sys w) l1 (files w)
            else <[resolve (sys w) n := remains]> (write_all (sys w) l1 (files w)))
           (sys w) (trace w ++ export_events l1 ++ [EvOpen n Wr; EvWrite n g])).
Proof.
  revert w. induction l1 as [|[n' g'] l1 IH]; intros w Hl1 Hopen Htorn.
  - cbn [app for_each]. unfold bind at 1. rewrite (export_torn _ _ _ remains) by done. done.
  - apply Forall_cons in Hl1 as [Hn' Hl1]. cbn [app for_each]. unfold bind at 1.
    rewrite export_run by done. rewrite IH by done. cbn. by rewrite <-app_assoc.
Qed.

(** Whatever the outcome, the loop ends well or in an error of its I/O,
    removes no file and changes only files it was to write. *)
Lemma for_each_export_any outs w :
  ∃ r w', for_each outs (λ '(sub_name, sub_contents), export sub_name sub_contents) w = (r, w') ∧
          io_result r ∧
          (∀ file, file ∉ resolve (sys w) <$> outs.*1 → files w' !! file = files w !! file) ∧
          (∀ file, is_Some (files w !! file) → is_Some (files w' !! file)).
Proof.
  revert w. induction outs as [|[n g] outs IH]; intros w.
  - exists (inr tt), w. split; [done|]. split; [by left|]. auto.
  - cbn [for_each]. unfold bind at 1.
    destruct (export_any n g w) as (r1 & w1 & -> & Hr1 & Hsys & Hframe1 & Hkeep1).
    destruct r1 as [e|[]].
    + exists (inl e), w1. split; [done|]. split; [done|]. split; [|done].
      intros file Hfile. cbn [fmap list_fmap fst] in Hfile.
      apply not_elem_of_cons in Hfile as [Hne _]. by apply Hframe1.
    + destruct (IH w1) as (r & w' & -> & Hr & Hframe & Hkeep).
      exists r, w'. split; [done|]. split; [done|]. split.
      * intros file Hfile. cbn [fmap list_fmap fst] in Hfile.
        apply not_elem_of_cons in Hfile as [Hne Hfile].
        rewrite Hframe by by rewrite Hsys. by apply Hframe1.
      * intros file H. by apply Hkeep, Hkeep1.
Qed.

Lemma main_no_file prog name stripped w :
  splitext name = (stripped, str ".split") →
  files w !! resolve (sys w) name = None →
  main [prog; name] w = (inl (OSError name), log (EvOpen name Rd) w).
Proof.
  intros Hext Hfile. unfold main. cbn [length index lookup list_lookup].
  rewrite !bool_decide_true by lia. cbn [assert]. rewrite !bind_ret, Hext.
  rewrite !bool_decide_true by done. cbn [assert]. rewrite !bind_ret.
  unfold bind at 1. unfold open_r. by rewrite Hfile.
Qed.

(** The ways a run can go: refused by an [assert] before any I/O, stopped
    at the [open] of a missing input, or through to the loop of exports. *)
Lemma main_cases argv w :
  (∃ msg, main argv w = (inl (AssertionError msg), w)) ∨
  (∃ prog name stripped,
     argv = [prog; name] ∧ splitext name = (stripped, str ".split") ∧
     ((files w !! resolve (sys w) name = None ∧
       main argv w = (inl (OSError name), log (EvOpen name Rd) w)) ∨
      (∃ contents,
         files w !! resolve (sys w) name = Some contents ∧
         main argv w
         = for_each (exports stripped (split MARKER contents))
                    (λ '(sub_name, sub_contents), export sub_name sub_contents)
                    (log (EvRead name) (log (EvOpen name Rd) w))))).
Proof.
  destruct argv as [|prog [|name [|x argv]]].
  - left. by eexists.
  - left. by eexists.
  - destruct (splitext name) as [stripped ext] eqn:Hext.
    destruct (decide (ext = str ".split")) as [->|Hne].
    + right. exists prog, name, stripped. split; [done|]. split; [done|].
      destruct (files w !! resolve (sys w) name) as [contents|] eqn:Hfile.
      * right. exists contents. split; [done|]. by apply main_exports.
      * left. split; [done|]. by apply (main_no_file _ _ stripped).
    + left. exists "Expected `.split` file"%string. unfold main.
      cbn [length index lookup list_lookup].
      rewrite !bool_decide_true by lia. cbn [assert]. rewrite !bind_ret, Hext.
      by rewrite bool_decide_false.
  - left. exists "Too many arguments"%string. unfold main. cbn [length].
    rewrite bool_decide_true by lia. cbn [assert]. rewrite bind_ret.
    by rewrite bool_decide_false by lia.
Qed.

(** X3: when the input file is missing, the run ends in an [OSError] on
    its path at the [open]: nothing is read, no file is written or
    changed. *)
Theorem missing_input_fails (prog name stripped : text) (w : world) :
  splitext name = (stripped, str ".split") →
  files w !! resolve (sys w) name = None →
  ∃ w', main [prog; name] w = (inl (OSError name), w') ∧
        files w' = files w ∧
        trace w' = trace w ++ [EvOpen name Rd].
Proof.
  intros Hext Hfile. eexists. split; [by apply (main_no_file _ _ stripped)|done].
Qed.

Lemma missing_input_fails_witness :
  (splitext sample_path = (str "a", str ".split") ∧
   files (boot ∅ plain_os) !! resolve (sys (boot ∅ plain_os)) sample_path = None) ∧
  ∃ w', main [script; sample_path] (boot ∅ plain_os) = (inl (OSError sample_path), w') ∧
        files w' = files (boot ∅ plain_os) ∧
        trace w' = trace (boot ∅ plain_os) ++ [EvOpen sample_path Rd].
Proof.
  assert (splitext sample_path = (str "a", str ".split")) as H1 by (vm_compute; reflexivity).
  assert (files (boot ∅ plain_os) !! resolve (sys (boot ∅ plain_os)) sample_path = None)
    as H2 by apply lookup_empty.
  exact (conj (conj H1 H2) (missing_input_fails script _ _ _ H1 H2)).
Defined.

(** X4: a run stops at the first target that cannot be opened for
    writing, with the error of that [open]: a [ValueError] when the target
    name holds a NUL, an [OSError] on the target when the operating system
    refuses it.  The files exported before it stay written, and neither it
    nor any later target is written. *)
Theorem stops_at_unwritable fs o prog name stripped contents
    (l1 l2 : list (text * text)) (n g : text) (e : exn) :
  splitext name = (stripped, str ".split") →
  fs !! resolve o name = Some contents →
  (if bool_decide (preamble contents ≠ []) then [(stripped, preamble contents)] else [])
  ++ zip (names contents) (segments contents) = l1 ++ (n, g) :: l2 →
  Forall (λ out, exportable o out.1 out.2) l1 →
  open_error o n = Some e →
  ((e = ValueError ∧ NUL ∈ n) ∨ (e = OSError n ∧ NUL ∉ n)) ∧
  main [prog; name] (boot fs o)
  = (inl e,
     World (write_all o l1 fs) o
           ([EvOpen name Rd; EvRead name] ++ export_events l1 ++ [EvOpen n Wr])).
Proof.
  intros Hext Hfile Houts Hl1 Hn. split; [by apply (open_error_kind o)|].
  rewrite (main_exports prog name stripped contents) by done.
  rewrite exports_tokens, Houts. by rewrite (for_each_export_stops _ _ _ _ _ e).
Qed.

Lemma stops_at_unwritable_witness :
  (splitext sample_path = (str "a", str ".split") ∧
   sample_fs strict_os sample_doc !! resolve strict_os sample_path = Some sample_doc ∧
   (if bool_decide (preamble sample_doc ≠ []) then [(str "a", preamble sample_doc)] else [])
   ++ zip (names sample_doc) (segments sample_doc)
   = [(str "a", str "pre" ++ [nl])]
     ++ (str "x.txt", str "foo bar" ++ [nl]) :: [(str "y.txt", [])] ∧
   Forall (λ out, exportable strict_os out.1 out.2) [(str "a", str "pre" ++ [nl])] ∧
   open_error strict_os (str "x.txt") = Some (OSError (str "x.txt"))) ∧
  ((OSError (str "x.txt") = ValueError ∧ NUL ∈ str "x.txt") ∨
   (OSError (str "x.txt") = OSError (str "x.txt") ∧ NUL ∉ str "x.txt")) ∧
  main [script; sample_path] (boot (sample_fs strict_os sample_doc) strict_os)
  = (inl (OSError (str "x.txt")),
     World (write_all strict_os [(str "a", str "pre" ++ [nl])] (sample_fs strict_os sample_doc))
           strict_os
           ([EvOpen sample_path Rd; EvRead sample_path]
            ++ export_events [(str "a", str "pre" ++ [nl])] ++ [EvOpen (str "x.txt") Wr])).
Proof.
  assert (splitext sample_path = (str "a", str ".split")) as H1 by (vm_compute; reflexivity).
  assert (sample_fs strict_os sample_doc !! resolve strict_os sample_path = Some sample_doc)
    as H2 by apply lookup_singleton_eq.
  assert ((if bool_decide (preamble sample_doc ≠ []) then [(str "a", preamble sample_doc)] else [])
          ++ zip (names sample_doc) (segments sample_doc)
          = [(str "a", str "pre" ++ [nl])]
            ++ (str "x.txt", str "foo bar" ++ [nl]) :: [(str "y.txt", [])]) as H3
    by (vm_compute; reflexivity).
  assert (Forall (λ out, exportable strict_os out.1 out.2) [(str "a", str "pre" ++ [nl])])
    as H4 by (repeat constructor).
  assert (open_error strict_os (str "x.txt") = Some (OSError (str "x.txt"))) as H5
    by (vm_compute; reflexivity).
  split; [exact (conj H1 (conj H2 (conj H3 (conj H4 H5))))|].
  exact (stops_at_unwritable _ strict_os script _ _ _ _ _ _ _ _ H1 H2 H3 H4 H5).
Defined.

(** X13: a run stops at the first write that fails, with an [OSError] on
    its target: the files exported before it stay written, the target
    holds what the failed write left of it, and no later target is opened
    or written. *)
Theorem stops_at_failed_write fs o prog name stripped contents
    (l1 l2 : list (text * text)) (n g remains : text) :
  splitext name = (stripped, str ".split") →
  fs !! resolve o name = Some contents →
  (if bool_decide (preamble contents ≠ []) then [(stripped, preamble contents)] else [])
  ++ zip (names contents) (segments contents) = l1 ++ (n, g) :: l2 →
  Forall (λ out, exportable o out.1 out.2) l1 →
  open_error o n = None →
  torn o (resolve o n) g = Some remains →
  main [prog; name] (boot fs o)
  = (inl (OSError n),
     World (if device o (resolve o n) then write_all o l1 fs
            else <[resolve o n := remains]> (write_all o l1 fs)) o
           ([EvOpen name Rd; EvRead name] ++ export_events l1
            ++ [EvOpen n Wr; EvWrite n g])).
Proof.
  intros Hext Hfile Houts Hl1 Hopen Htorn.
  rewrite (main_exports prog name stripped contents) by done.
  rewrite exports_tokens, Houts. by rewrite (for_each_export_torn _ _ _ _ _ remains).
Qed.

Lemma stops_at_failed_write_witness :
  (splitext sample_path = (str "a", str ".split") ∧
   sample_fs full_os sample_doc !! resolve full_os sample_path = Some sample_doc ∧
   (if bool_decide (preamble sample_doc ≠ []) then [(str "a", preamble sample_doc)] else [])
   ++ zip (names sample_doc) (segments sample_doc)
   = [(str "a", str "pre" ++ [nl])]
     ++ (str "x.txt", str "foo bar" ++ [nl]) :: [(str "y.txt", [])] ∧
   Forall (λ out, exportable full_os out.1 out.2) [(str "a", str "pre" ++ [nl])] ∧
   open_error full_os (str "x.txt") = None ∧
   torn full_os (resolve full_os (str "x.txt")) (str "foo bar" ++ [nl]) = Some []) ∧
  main [script; sample_path] (boot (sample_fs full_os sample_doc) full_os)
  = (inl (OSError (str "x.txt")),
     World (if device full_os (resolve full_os (str "x.txt"))
            then write_all full_os [(str "a", str "pre" ++ [nl])] (sample_fs full_os sample_doc)
            else <[resolve full_os (str "x.txt") := []]>
                   (write_all full_os [(str "a", str "pre" ++ [nl])]
                              (sample_fs full_os sample_doc)))
           full_os
           ([EvOpen sample_path Rd; EvRead sample_path]
            ++ export_events [(str "a", str "pre" ++ [nl])]
            ++ [EvOpen (str "x.txt") Wr; EvWrite (str "x.txt") (str "foo bar" ++ [nl])])).
Proof.
  assert (splitext sample_path = (str "a", str ".split")) as H1 by (vm_compute; reflexivity).
  assert (sample_fs full_os sample_doc !! resolve full_os sample_path = Some sample_doc)
    as H2 by apply lookup_singleton_eq.
  assert ((if bool_decide (preamble sample_doc ≠ []) then [(str "a", preamble sample_doc)] else [])
          ++ zip (names sample_doc) (segments sample_doc)
          = [(str "a", str "pre" ++ [nl])]
            ++ (str "x.txt", str "foo bar" ++ [nl]) :: [(str "y.txt", [])]) as H3
    by (vm_compute; reflexivity).
  assert (Forall (λ out, exportable full_os out.1 out.2) [(str "a", str "pre" ++ [nl])])
    as H4 by (repeat constructor).
  assert (open_error full_os (str "x.txt") = None) as H5 by (vm_compute; reflexivity).
  assert (torn full_os (resolve full_os (str "x.txt")) (str "foo bar" ++ [nl]) = Some [])
    as H6 by (vm_compute; reflexivity).
  split; [exact (conj H1 (conj H2 (conj H3 (conj H4 (conj H5 H6)))))|].
  exact (stops_at_failed_write _ full_os script _ _ _ _ _ _ _ _ H1 H2 H3 H4 H5 H6).
Defined.

(** A target name with a NUL: the [open] raises [ValueError] and nothing
    is written. *)
Remark nul_target_value_error :
  main [script; sample_path]
       (boot (sample_fs plain_os (str "// FILE: a" ++ [NUL] ++ str "b" ++ [nl])) plain_os)
  = (inl ValueError,
     World (sample_fs plain_os (str "// FILE: a" ++ [NUL] ++ str "b" ++ [nl])) plain_os
           [EvOpen sample_path Rd; EvRead sample_path;
            EvOpen (str "a" ++ [NUL] ++ str "b") Wr]).
Proof. by vm_compute. Qed.

(** A target that is a null device: the export goes through and leaves
    nothing. *)
Remark null_device_keeps_nothing :
  let o := Os encode (λ _, false) (λ file, bool_decide (file = encode (str "/dev/null")))
              (λ _ _, None) in
  let doc := str "// FILE: /dev/null" ++ [nl] ++ str "foo bar" ++ [nl] in
  main [script; sample_path] (boot (sample_fs o doc) o)
  = (inr tt,
     World (sample_fs o doc) o
           [EvOpen sample_path Rd; EvRead sample_path;
            EvOpen (str "/dev/null") Wr; EvWrite (str "/dev/null") (str "foo bar" ++ [nl])]).
Proof. by vm_compute. Qed.

(** A marker that leads to the input file under another name: the run
    overwrites its own input. *)
Remark marker_overwrites_input :
  let doc := str "// FILE: ./a.split" ++ [nl] ++ str "new text" ++ [nl] in
  ∃ w, main [script; sample_path] (boot (sample_fs posix_os doc) posix_os) = (inr tt, w) ∧
       files w !! resolve posix_os sample_path = Some (str "new text" ++ [nl]).
Proof. eexists. split; by vm_compute. Qed.

(** X5: a run never removes a file, whatever its arguments and however it
    ends; and on a [.split] input that is there it leaves as they were all
    files but those that the name of the input without its extension and
    the target names of the markers lead to, so the input itself too
    unless one of these names leads to it. *)
Theorem main_keeps_other_files (argv : list text) (w : world) :
  ∃ r w', main argv w = (r, w') ∧
    (∀ file, is_Some (files w !! file) → is_Some (files w' !! file)) ∧
    (∀ prog name stripped contents,
       argv = [prog; name] → splitext name = (stripped, str ".split") →
       files w !! resolve (sys w) name = Some contents →
       ∀ file, file ≠ resolve (sys w) stripped →
               (file ∉ resolve (sys w) <$> names contents) →
               files w' !! file = files w !! file).
Proof.
  destruct (main_cases argv w)
    as [[msg ->]|(prog & name & stripped & -> & Hext & [[Hfile ->]|(contents & Hfile & ->)])].
  - eexists _, _. split; [done|]. split; [done|]. by intros.
  - eexists _, _. split; [done|]. split; [done|]. by intros.
  - destruct (for_each_export_any (exports stripped (split MARKER contents))
                (log (EvRead name) (log (EvOpen name Rd) w)))
      as (r & w' & -> & _ & Hframe & Hkeep).
    exists r, w'. split; [done|]. split; [done|].
    intros prog' name' stripped' contents' [= <- <-] Hext' Hfile' file Hfile0 Hnames.
    rewrite Hext in Hext'. injection Hext' as <-.
    rewrite Hfile in Hfile'. injection Hfile' as <-.
    cbn [files sys log] in Hframe. apply Hframe.
    rewrite exports_tokens, !fmap_app, zip_names_fst.
    apply not_elem_of_app. split; [|done].
    case_bool_decide; [|apply not_elem_of_nil].
    cbn. apply not_elem_of_cons. split; [done|apply not_elem_of_nil].
Qed.

(** X6: a run never ends in an [IndexError]: the asserts guard
    [sys.argv[1]], and [parsed.pop(0)] is always on a list that has its
    preamble. *)
Theorem main_never_index_error (argv : list text) (w : world) :
  (main argv w).1 ≠ inl IndexError.
Proof.
  destruct (main_cases argv w)
    as [[msg ->]|(prog & name & stripped & -> & Hext & [[Hfile ->]|(contents & Hfile & ->)])];
    [done..|].
  destruct (for_each_export_any (exports stripped (split MARKER contents))
              (log (EvRead name) (log (EvOpen name Rd) w)))
    as (r & w' & -> & [->|[[p ->]| ->]] & _); done.
Qed.

(** *** More on the marker pattern *)

(** X7: no target name is empty and none holds a space: the files the
    markers name never have an empty name or a space in it. *)
Theorem names_have_no_space (s : text) :
  Forall (λ n, n ≠ [] ∧ sp ∉ n) (names s).
Proof. unfold names, finditer. apply (scans_names s _ _ (scan_scans s)). Qed.

(** X8: no marker is left in what is written: the preamble and every
    segment, parsed again, have no marker and give themselves back. *)
Theorem segments_marker_free (s : text) :
  split MARKER (preamble s) = [preamble s] ∧
  Forall (λ g, split MARKER g = [g]) (segments s).
Proof.
  pose proof (scans_cuts_free s _ _ (scan_scans s)) as H.
  fold (cuts s) in H. unfold preamble, segments.
  destruct (cuts s) as [|g gs]; [by inversion H|].
  apply Forall_cons in H as [Hg Hgs]. cbn [hd tail]. split; [by apply split_none|].
  eapply Forall_impl; [exact Hgs|]. intros g'. apply split_none.
Qed.

(** X9: the parse goes through a marker piece by piece.  Before a marker
    text, content without a slash is the preamble; the marker's name is
    the target; what follows is parsed on its own.  This holds when the
    name cannot run on: a space follows the name, or the text after the
    marker does not start with a run of characters other than the space
    (line feeds among them, the empty run too) that is followed by any
    number of spaces and a line feed. *)
Theorem split_at_marker (pre : text) (a b : nat) (name : text) (c : nat) (rest : text) :
  ("/"%char ∉ pre) →
  name ≠ [] → Forall (λ x, x ≠ sp) name →
  (c = 0 → ∀ u v c' r, rest = u ++ v → Forall (λ x, x ≠ sp) u →
             v ≠ replicate c' sp ++ nl :: r) →
  split MARKER (pre ++ marker_text a b name c ++ rest)
  = pre :: name :: split MARKER rest.
Proof.
  intros Hpre Hne Hname Hrest. induction pre as [|x pre IH].
  - destruct (marker_match_here (marker_text a b name c ++ rest) a b name c rest
                Hne Hname Hrest) as (m & Hm & Hg).
    cbn [app]. apply (split_cons _ _ m); [by apply search_here|done].
  - apply not_elem_of_cons in Hpre as [Hx Hpre].
    cbn [app]. rewrite split_skip, IH by done. done.
Qed.

Lemma split_at_marker_witness :
  (("/"%char ∉ str "abc ") ∧
   str "x.txt" ≠ [] ∧ Forall (λ x, x ≠ sp) (str "x.txt") ∧
   (0 = 0 → ∀ u v c' r, str "a b" ++ [nl] = u ++ v → Forall (λ x, x ≠ sp) u →
              v ≠ replicate c' sp ++ nl :: r)) ∧
  split MARKER (str "abc " ++ marker_text 1 1 (str "x.txt") 0 ++ str "a b" ++ [nl])
  = str "abc " :: str "x.txt" :: split MARKER (str "a b" ++ [nl]).
Proof.
  assert ("/"%char ∉ str "abc ") as H1 by (unfold str; cbn; not_among).
  assert (str "x.txt" ≠ []) as H2 by discriminate.
  assert (Forall (λ x, x ≠ sp) (str "x.txt")) as H3 by (repeat constructor; discriminate).
  assert (0 = 0 → ∀ u v c' r, str "a b" ++ [nl] = u ++ v → Forall (λ x, x ≠ sp) u →
                    v ≠ replicate c' sp ++ nl :: r) as H4.
  { intros _ u v c' r Huv Hu ->. destruct u as [|x1 u]; cbn in Huv.
    - destruct c'; discriminate Huv.
    - injection Huv as <- Huv. destruct u as [|x2 u]; cbn in Huv.
      + destruct c' as [|[|c']]; discriminate Huv.
      + injection Huv as <- Huv. apply Forall_cons in Hu as [_ Hu].
        apply Forall_cons in Hu as [Hu _]. by apply Hu. }
  exact (conj (conj H1 (conj H2 (conj H3 H4)))
              (split_at_marker _ 1 1 _ 0 _ H1 H2 H3 H4)).
Defined.

(** X10: the name is greedy over line feeds.  When no space follows the
    name on its line and the lines after it, up to the end of the
    document, hold no space either, all of them but the last line feed go
    into the name, and the segment is empty. *)
Theorem name_takes_spaceless_lines (a b : nat) (name body : text) :
  name ≠ [] → Forall (λ x, x ≠ sp) name → Forall (λ x, x ≠ sp) body →
  split MARKER (marker_text a b name 0 ++ body ++ [nl])
  = [[]; name ++ nl :: body; []].
Proof.
  intros Hne Hname Hbody.
  replace (marker_text a b name 0 ++ body ++ [nl])
    with (marker_text a b (name ++ nl :: body) 0).
  - apply split_marker_text; [by destruct name|].
    apply Forall_app. split; [done|]. by constructor.
  - unfold marker_text. cbn [replicate app]. by flatten_app.
Qed.

Lemma name_takes_spaceless_lines_witness :
  (str "x.txt" ≠ [] ∧ Forall (λ x, x ≠ sp) (str "x.txt") ∧
   Forall (λ x, x ≠ sp) (str "foo")) ∧
  split MARKER (marker_text 1 1 (str "x.txt") 0 ++ str "foo" ++ [nl])
  = [[]; str "x.txt" ++ nl :: str "foo"; []].
Proof.
  assert (str "x.txt" ≠ []) as H1 by discriminate.
  assert (Forall (λ x, x ≠ sp) (str "x.txt")) as H2 by (repeat constructor; discriminate).
  assert (Forall (λ x, x ≠ sp) (str "foo")) as H3 by (repeat constructor; discriminate).
  exact (conj (conj H1 (conj H2 H3)) (name_takes_spaceless_lines 1 1 _ _ H1 H2 H3)).
Defined.

(** *** The extension check *)

(** X11: the script takes a single path argument past its asserts exactly
    when the path is a root followed by [.split] and the file name of the
    root, what follows its last slash, has a character that is not a dot.
    Every other path ends the run in an [AssertionError] before any I/O:
    so [a.txt], but also [.split], [dir/.split] and [..split]. *)
Theorem extension_check (prog name : text) (w : world) :
  (∃ msg, main [prog; name] w = (inl (AssertionError msg), w)) ↔
  ¬ ∃ root, name = root ++ str ".split" ∧ ∃ x, x ∈ basename root ∧ x ≠ "."%char.
Proof.
  split.
  - intros [msg Hmsg] (root & Hroot).
    apply splitext_split_iff in Hroot as Hext.
    destruct (files w !! resolve (sys w) name) as [contents|] eqn:Hfile.
    + rewrite (main_exports prog name root contents) in Hmsg by done.
      destruct (for_each_export_any (exports root (split MARKER contents))
                  (log (EvRead name) (log (EvOpen name Rd) w)))
        as (r & w' & Heq & [->|[[p ->]| ->]] & _); rewrite Heq in Hmsg; discriminate.
    + rewrite (main_no_file prog name root) in Hmsg by done. discriminate.
  - intros Hnot.
    destruct (main_cases [prog; name] w)
      as [H|(prog' & name' & stripped & [= <- <-] & Hext & _)]; [done|].
    exfalso. apply Hnot. exists stripped. by apply splitext_split_iff.
Qed.

(** The refused paths of the kind named above. *)
Remark hidden_split_refused :
  Forall (λ name, (splitext name).2 ≠ str ".split")
         [str ".split"; str "dir/.split"; str "..split"; str "a.txt"].
Proof. repeat constructor; intros H; vm_compute in H; discriminate. Qed.

(** *** Running again *)

Lemma last_occurrence o (outs : list (text * text)) (file : inode) :
  file ∈ resolve o <$> outs.*1 →
  ∃ k p g, outs !! k = Some (p, g) ∧ resolve o p = file ∧
           ∀ j out, k < j → outs !! j = Some out → resolve o out.1 ≠ file.
Proof.
  induction outs as [|[n g] outs IH]; cbn [fmap list_fmap fst]; [by intros ?%elem_of_nil|].
  intros Hp. destruct (decide (file ∈ resolve o <$> outs.*1)) as [Hin|Hout].
  - destruct (IH Hin) as (k & p & g' & Hk & Hp' & Hlast). exists (S k), p, g'.
    split; [done|]. split; [done|].
    intros [|j] out Hj Ho; [lia|]. apply (Hlast j); [lia|done].
  - apply elem_of_cons in Hp as [->|Hp]; [|done]. exists 0, n, g.
    split; [done|]. split; [done|].
    intros [|j] out Hj Ho Heq; [lia|]. apply Hout. rewrite <-Heq.
    apply list_elem_of_fmap_2, list_elem_of_fmap_2, list_elem_of_lookup. by exists j.
Qed.

(** Making the same exports a second time changes nothing. *)
Lemma write_all_idem o outs fs :
  write_all o outs (write_all o outs fs) = write_all o outs fs.
Proof.
  apply map_eq. intros file.
  destruct (decide (file ∈ resolve o <$> outs.*1)) as [Hin|Hout].
  - destruct (last_occurrence _ _ _ Hin) as (k & p & g & Hk & <- & Hlast).
    by rewrite !(write_all_last o outs _ k p g).
  - assert (∀ out, out ∈ outs → resolve o out.1 ≠ file) as Hno.
    { intros out Ho <-. by apply Hout, list_elem_of_fmap_2, list_elem_of_fmap_2. }
    by rewrite !write_all_other.
Qed.

(** X12: running the script a second time on the same input is harmless:
    when the first run ends well and none of its targets, the name of the
    input without its extension when there is a preamble and the target
    names of the markers, leads to the input file itself, the second run
    ends well too and leaves the files as the first run left them. *)
Theorem run_again_same_files fs o prog name stripped contents :
  splitext name = (stripped, str ".split") →
  fs !! resolve o name = Some contents →
  writable o stripped contents →
  (resolve o name ∉ resolve o <$> targets stripped contents) →
  ∃ w1 w2,
    main [prog; name] (boot fs o) = (inr tt, w1) ∧
    main [prog; name] (boot (files w1) o) = (inr tt, w2) ∧
    files w2 = files w1.
Proof.
  intros Hext Hfile Hw Hname.
  set (outs := (if bool_decide (preamble contents ≠ [])
                then [(stripped, preamble contents)] else [])
               ++ zip (names contents) (segments contents)).
  assert (write_all o outs fs !! resolve o name = Some contents) as Hfile'.
  { rewrite write_all_other; [done|]. intros out Ho Heq. apply Hname.
    rewrite <-Heq, <-outs_targets. by apply list_elem_of_fmap_2, list_elem_of_fmap_2. }
  eexists _, _. split; [by apply main_run_tokens|].
  cbn [files]. fold outs. split; [by apply main_run_tokens|].
  cbn [files]. fold outs. apply write_all_idem.
Qed.

Lemma run_again_same_files_witness :
  (splitext sample_path = (str "a", str ".split") ∧
   sample_fs plain_os sample_doc !! resolve plain_os sample_path = Some sample_doc ∧
   writable plain_os (str "a") sample_doc ∧
   (resolve plain_os sample_path ∉ resolve plain_os <$> targets (str "a") sample_doc)) ∧
  ∃ w1 w2,
    main [script; sample_path] (boot (sample_fs plain_os sample_doc) plain_os) = (inr tt, w1) ∧
    main [script; sample_path] (boot (files w1) plain_os) = (inr tt, w2) ∧
    files w2 = files w1.
Proof.
  destruct (sample_ready sample_doc sample_names) as (H1 & H2 & H3).
  assert (resolve plain_os sample_path ∉ resolve plain_os <$> targets (str "a") sample_doc)
    as H4.
  { replace (targets (str "a") sample_doc) with [str "a"; str "x.txt"; str "y.txt"]
      by (vm_compute; reflexivity).
    intros H. vm_compute in H.
    repeat (apply elem_of_cons in H as [H|H]; [discriminate H|]). by apply elem_of_nil in H. }
  exact (conj (conj H1 (conj H2 (conj H3 H4)))
              (run_again_same_files _ _ script _ _ _ H1 H2 H3 H4)).
Defined.
